(** * asbplayer-linux: command dispatch, native audio recorder, sidebar service

    A shallow embedding of three pieces of the extension:
    - the [browser.runtime.onMessage] listener of
      [extension/src/entrypoints/background.ts],
    - the [NativeAudioRecorder] class and its singleton accessor of
      [extension/src/services/native-audio-recorder.ts],
    - the [SidebarService] of [extension/src/services/sidebar-service.ts].

    Promises are modelled by their eventual outcome together with the time
    (in milliseconds since the call) at which they settle; the browser
    platform is modelled by explicit scripts of what it delivers. *)

From stdpp Require Import base list strings.
From Stdlib Require Import ZArith Lia.

(** ** Promises by outcome *)

(** The eventual state of a JavaScript promise: it stays pending for ever,
    or it settles once, at time [t], by fulfilment or by rejection. Errors
    are represented by their message. *)
Inductive Settled (A : Type) : Type :=
| Pending
| Fulfilled (t : Z) (v : A)
| Rejected (t : Z) (e : string).
Arguments Pending {A}.
Arguments Fulfilled {A} t v.
Arguments Rejected {A} t e.

(** [resolve] and [reject] of a promise executor: only the first call has
    an effect. *)
Definition resolve {A} (t : Z) (v : A) (p : Settled A) : Settled A :=
  match p with Pending => Fulfilled t v | _ => p end.

Definition reject {A} (t : Z) (e : string) (p : Settled A) : Settled A :=
  match p with Pending => Rejected t e | _ => p end.

Definition isRejected {A} (p : Settled A) : bool :=
  match p with Rejected _ _ => true | _ => false end.

(** ** background.ts: the message listener *)

Module Background.

(** [Command<Message>]: the envelope, which by its type always carries a
    message; the payload of the message beyond its command name is opaque
    to the listener. *)
Record Message := { command : string }.
Record Command := { sender : string; message : Message }.

(** [CommandHandler.sender] is a string or an array of strings. *)
Inductive SenderSpec :=
| SenderString (s : string)
| SenderArray (l : list string).

(** What [handler.handle(request, sender, sendResponse)] does: it returns a
    value, which the listener compares with [true], or it throws. *)
Inductive JsValue := JsTrue | JsFalse | JsUndefined | JsPromise.
Inductive HandleResult := Returns (v : JsValue) | Throws (e : string).

(** What the listener does: [return true], fall off the end (undefined), or
    let an exception escape. *)
Inductive ListenerResult := ReturnTrue | ReturnUndefined | Uncaught (e : string).

Section Listener.
(** The services the handlers share (tab registry, audio recorder, the
    reply channel, ...) and the platform's [MessageSender]. *)
Variable State : Type.
Variable MessageSender : Type.

Record CommandHandler := {
  handler_sender : SenderSpec;
  handler_command : option string;   (* [null] is the wildcard *)
  handle : Command -> MessageSender -> State -> HandleResult * State
}.

Record Dispatch := {
  result : ListenerResult;
  invoked : list nat;                (* positions of the handlers called *)
  final : State
}.

(** [(typeof handler.sender === 'string' && handler.sender === request.sender)
     || (typeof handler.sender === 'object' && handler.sender.includes(request.sender))] *)
Definition senderMatches (h : CommandHandler) (request : Command) : bool :=
  match handler_sender h with
  | SenderString s => String.eqb s (sender request)
  | SenderArray l => existsb (String.eqb (sender request)) l
  end.

(** [handler.command === null || handler.command === request.message.command] *)
Definition commandMatches (h : CommandHandler) (request : Command) : bool :=
  match handler_command h with
  | None => true
  | Some c => String.eqb c (command (message request))
  end.

(** [for (const handler of handlers) { ... }], [i] being the position of
    the head of [hs] in the full list. *)
Fixpoint scan (i : nat) (hs : list CommandHandler) (request : Command)
    (sm : MessageSender) (st : State) : Dispatch :=
  match hs with
  | [] => {| result := ReturnUndefined; invoked := []; final := st |}
  | handler :: rest =>
      if senderMatches handler request then
        if commandMatches handler request then
          let '(r, st') := handle handler request sm st in
          match r with
          | Throws e => {| result := Uncaught e; invoked := [i]; final := st' |}
          | Returns JsTrue =>
              {| result := ReturnTrue; invoked := [i]; final := st' |}
          | Returns _ =>
              (* break *)
              {| result := ReturnUndefined; invoked := [i]; final := st' |}
          end
        else scan (S i) rest request sm st
      else scan (S i) rest request sm st
  end.

Definition onMessage (handlers : list CommandHandler) (request : Command)
    (sm : MessageSender) (st : State) : Dispatch :=
  scan 0 handlers request sm st.

(** The runtime's event dispatcher: it calls the listener once per
    message, in arrival order; an exception that escapes the listener is
    reported by the runtime and the listener stays registered. *)
Fixpoint deliverAll (handlers : list CommandHandler)
    (msgs : list (Command * MessageSender)) (st : State) : list Dispatch :=
  match msgs with
  | [] => []
  | (request, sm) :: rest =>
      let d := onMessage handlers request sm st in
      d :: deliverAll handlers rest (final d)
  end.

(** The matching rule in the specification's words: the accepted origins
    contain the envelope's origin, and the accepted command is the
    wildcard or the envelope's command name. *)
Definition accepts (h : CommandHandler) (request : Command) : Prop :=
  match handler_sender h with
  | SenderString s => s = sender request
  | SenderArray l => In (sender request) l
  end
  /\ (handler_command h = None
      \/ handler_command h = Some (command (message request))).

(** The property that an exception of a handler never escapes the
    listener. *)
Definition caughtAtBus (handlers : list CommandHandler) (request : Command)
    (sm : MessageSender) (st : State) : Prop :=
  forall e, result (onMessage handlers request sm st) <> Uncaught e.

End Listener.

Arguments handler_sender {State MessageSender} _.
Arguments handler_command {State MessageSender} _.
Arguments handle {State MessageSender} _ _ _ _.
Arguments result {State} _.
Arguments invoked {State} _.
Arguments final {State} _.
Arguments senderMatches {State MessageSender} _ _.
Arguments commandMatches {State MessageSender} _ _.
Arguments scan {State MessageSender} _ _ _ _ _.
Arguments onMessage {State MessageSender} _ _ _ _.
Arguments deliverAll {State MessageSender} _ _ _.
Arguments accepts {State MessageSender} _ _.
Arguments caughtAtBus {State MessageSender} _ _ _ _.

(** The test of the loop on one handler, as one boolean. *)
Definition matches {State MessageSender : Type}
    (request : Command) (h : CommandHandler State MessageSender) : bool :=
  senderMatches h request && commandMatches h request.

(** A list of two handlers for the sender [asbplayer-video]: the first
    throws on the command [record-media], the second would take any
    command. The state counts the calls of [handle]. *)
Definition throwingHandler : CommandHandler nat unit :=
  {| handler_sender := SenderString "asbplayer-video";
     handler_command := Some "record-media";
     handle := fun _ _ n => (Throws "no active tab", S n) |}.

Definition catchAllHandler : CommandHandler nat unit :=
  {| handler_sender := SenderArray ["asbplayer-video"; "asbplayerv2"];
     handler_command := None;
     handle := fun _ _ n => (Returns JsTrue, S n) |}.

Definition recordMedia : Command :=
  {| sender := "asbplayer-video"; message := {| command := "record-media" |} |}.

Definition heartbeat : Command :=
  {| sender := "asbplayerv2"; message := {| command := "heartbeat" |} |}.


(** *** Keyboard shortcuts and context menus *)

(** The members of [PostMineAction] that the background script names. *)
Inductive PostMineAction := none | showAnkiDialog | updateLastCard | exportCard.

(** A value, or the message of the [Error] thrown instead. *)
Inductive Thrown (A : Type) : Type :=
| Ok (a : A)
| Threw (e : string).
Arguments Ok {A} a.
Arguments Threw {A} e.

(** [Browser.tabs.Tab], as far as the script reads it. *)
Record Tab := { tab_id : option Z; tab_url : option string }.

(** A video element and an asbplayer of the tab registry, as far as the
    script reads them. *)
Record VideoElement := {
  src : string;
  tab : Tab;
  synced : bool;
  subscribed : bool
}.

Record Asbplayer := {
  asbplayer_id : string;
  asbplayer_tab : option Tab;
  sidePanel : bool
}.

(** The messages the script builds and the commands that carry them. *)
Record OutMessage := {
  out_command : string;
  postMineAction : option PostMineAction
}.

Record ExtensionToVideoCommand := {
  video_sender : string;
  video_message : OutMessage;
  video_src : option string
}.

Record ExtensionToAsbPlayerCommand := {
  player_sender : string;
  player_message : OutMessage;
  asbplayerId : string
}.

(** What a listener asks of the tab registry and of [browser.tabs]; the
    registry applies a factory to each of its entries and sends what the
    factory returns, nothing for [undefined]. *)
Inductive Effect :=
| publishCommandToVideoElements (f : VideoElement -> option ExtensionToVideoCommand)
| publishCommandToVideoElementTabs (f : Tab -> option ExtensionToVideoCommand)
| publishCommandToAsbplayers (commandFactory : Asbplayer -> option ExtensionToAsbPlayerCommand)
| tabs_sendMessage (tabId : Z) (cmd : ExtensionToVideoCommand).

(** [a === b] on two optional numbers. *)
Definition sameId (a b : option Z) : bool :=
  match a, b with
  | Some x, Some y => (x =? y)%Z
  | None, None => true
  | _, _ => false
  end.

(** [a !== b] on two optional strings. *)
Definition differs (a b : option string) : bool :=
  match a, b with
  | Some x, Some y => negb (String.eqb x y)
  | None, None => false
  | _, _ => true
  end.

(** [tabs.find((t) => t.id === id)] *)
Definition findTab (tabs : list Tab) (id : option Z) : option Tab :=
  List.find (fun t => sameId (tab_id t) id) tabs.

(** [postMineActionFromCommand(command)] *)
Definition postMineActionFromCommand (command : string) : Thrown PostMineAction :=
  if String.eqb command "copy-subtitle" then Ok none
  else if String.eqb command "copy-subtitle-with-dialog" then Ok showAnkiDialog
  else if String.eqb command "update-last-card" then Ok updateLastCard
  else if String.eqb command "export-card" then Ok exportCard
  else Threw (String.append "Cannot determine post mine action for unknown command " command).

(** [validAsbplayer] of the shortcut listener *)
Definition validAsbplayer (tabs : list Tab) (asbplayer : Asbplayer) : bool :=
  if sidePanel asbplayer then false
  else
    match asbplayer_tab asbplayer with
    | Some tab =>
        match findTab tabs (tab_id tab) with
        | None => false
        | Some _ => true
        end
    | None => true
    end.

(** The two factories that every publishing branch of the shortcut
    listener builds, for the message [msg]. *)
Definition toVideoElement (tabs : list Tab) (msg : OutMessage)
    (videoElement : VideoElement) : option ExtensionToVideoCommand :=
  match findTab tabs (tab_id (tab videoElement)) with
  | None => None
  | Some _ =>
      Some {| video_sender := "asbplayer-extension-to-video";
              video_message := msg;
              video_src := Some (src videoElement) |}
  end.

Definition toAsbplayer (tabs : list Tab) (msg : OutMessage)
    (asbplayer : Asbplayer) : option ExtensionToAsbPlayerCommand :=
  if validAsbplayer tabs asbplayer then
    Some {| player_sender := "asbplayer-extension-to-player";
            player_message := msg;
            asbplayerId := asbplayer_id asbplayer |}
  else None.

Definition toggleVideoSelectCommand : ExtensionToVideoCommand :=
  {| video_sender := "asbplayer-extension-to-video";
     video_message := {| out_command := "toggle-video-select"; postMineAction := None |};
     video_src := None |}.

(** The callback of [browser.tabs.query] in the [onCommand] listener,
    [tabs] being the active tabs of the current window. *)
Definition onCommand (tabs : list Tab) (command : string) : Thrown (list Effect) :=
  if String.eqb command "copy-subtitle"
     || String.eqb command "update-last-card"
     || String.eqb command "export-card"
     || String.eqb command "copy-subtitle-with-dialog" then
    match postMineActionFromCommand command with
    | Threw e => Threw e
    | Ok action =>
        let msg := {| out_command := "copy-subtitle"; postMineAction := Some action |} in
        Ok [ publishCommandToVideoElements (toVideoElement tabs msg);
             publishCommandToAsbplayers (toAsbplayer tabs msg) ]
    end
  else if String.eqb command "toggle-video-select" then
    Ok (flat_map
          (fun t => match tab_id t with
                    | Some id => [tabs_sendMessage id toggleVideoSelectCommand]
                    | None => []
                    end)
          tabs)
  else if String.eqb command "take-screenshot" then
    let msg := {| out_command := "take-screenshot"; postMineAction := None |} in
    Ok [ publishCommandToVideoElements (toVideoElement tabs msg);
         publishCommandToAsbplayers (toAsbplayer tabs msg) ]
  else if String.eqb command "toggle-recording" then
    let msg := {| out_command := "toggle-recording"; postMineAction := None |} in
    Ok [ publishCommandToVideoElements (toVideoElement tabs msg);
         publishCommandToAsbplayers (toAsbplayer tabs msg) ]
  else Threw (String.append "Unknown command " command).

(** The shortcuts the [switch] of the listener knows. *)
Definition shortcuts : list string :=
  [ "copy-subtitle"; "update-last-card"; "export-card"; "copy-subtitle-with-dialog";
    "toggle-video-select"; "take-screenshot"; "toggle-recording" ].

(** An active tab with the identifier [id]. *)
Definition activeTab (tabs : list Tab) (id : option Z) : Prop :=
  exists t, In t tabs /\ tab_id t = id.

(** What a shortcut may ask for: a command for a video element only when
    its tab is among the active ones, a command for an asbplayer only when
    it is not a side panel and its tab, if it has one, is among the active
    ones, each command addressed to the entry it was built for; and a
    direct message only to an active tab. *)
Definition wellTargeted (tabs : list Tab) (eff : Effect) : Prop :=
  match eff with
  | publishCommandToVideoElements f =>
      forall v,
        match f v with
        | Some cmd =>
            activeTab tabs (tab_id (tab v))
            /\ video_sender cmd = "asbplayer-extension-to-video"
            /\ video_src cmd = Some (src v)
        | None => ~ activeTab tabs (tab_id (tab v))
        end
  | publishCommandToAsbplayers f =>
      forall a,
        match f a with
        | Some cmd =>
            sidePanel a = false
            /\ (forall t, asbplayer_tab a = Some t -> activeTab tabs (tab_id t))
            /\ player_sender cmd = "asbplayer-extension-to-player"
            /\ asbplayerId cmd = asbplayer_id a
        | None =>
            sidePanel a = true
            \/ exists t, asbplayer_tab a = Some t /\ ~ activeTab tabs (tab_id t)
        end
  | publishCommandToVideoElementTabs _ => False
  | tabs_sendMessage id cmd =>
      activeTab tabs (Some id) /\ cmd = toggleVideoSelectCommand
  end.

(** The listener has asked the registry to publish [msg]: one request for
    the video elements and one for the asbplayers, of which the factories
    give the command with [msg] to every video element of an active tab
    and to every asbplayer that is no side panel and has no tab or an
    active one. *)
Definition publishes (tabs : list Tab) (msg : OutMessage)
    (r : Thrown (list Effect)) : Prop :=
  exists f g,
    r = Ok [publishCommandToVideoElements f; publishCommandToAsbplayers g]
    /\ (forall v,
          activeTab tabs (tab_id (tab v)) ->
          f v = Some {| video_sender := "asbplayer-extension-to-video";
                        video_message := msg;
                        video_src := Some (src v) |})
    /\ (forall a,
          sidePanel a = false ->
          (forall t, asbplayer_tab a = Some t -> activeTab tabs (tab_id t)) ->
          g a = Some {| player_sender := "asbplayer-extension-to-player";
                        player_message := msg;
                        asbplayerId := asbplayer_id a |}).

(** [OnClickData] of a context menu, as far as the script reads it. *)
Record OnClickData := {
  menuItemId : string;
  pageUrl : option string;
  srcUrl : option string
}.

(** The factory of the [load-subtitles] menu item *)
Definition loadSubtitlesFactory (info : OnClickData) (t : Tab)
    : option ExtensionToVideoCommand :=
  if differs (pageUrl info) (tab_url t) then None
  else Some toggleVideoSelectCommand.

(** The factory of the [mine-subtitle] menu item *)
Definition mineSubtitleFactory (info : OnClickData) (videoElement : VideoElement)
    : option ExtensionToVideoCommand :=
  if match srcUrl info with
     | Some u => negb (String.eqb (src videoElement) u)
     | None => false
     end
  then None
  else if match srcUrl info with
          | None => differs (pageUrl info) (tab_url (tab videoElement))
          | Some _ => false
          end
  then None
  else
    Some {| video_sender := "asbplayer-extension-to-video";
            video_message := {| out_command := "copy-subtitle";
                                postMineAction := Some showAnkiDialog |};
            video_src := Some (src videoElement) |}.

(** The [contextMenus.onClicked] listener *)
Definition onClicked (info : OnClickData) : list Effect :=
  if String.eqb (menuItemId info) "load-subtitles" then
    [ publishCommandToVideoElementTabs (loadSubtitlesFactory info) ]
  else if String.eqb (menuItemId info) "mine-subtitle" then
    [ publishCommandToVideoElements (mineSubtitleFactory info) ]
  else [].


(** *** Setting up the context menus *)

Record MenuItem := {
  menu_id : string;
  menu_title : string;
  menu_contexts : list string
}.

(** What [setupContextMenus()] has done once its promise is fulfilled and
    the callbacks of [create] have run: whether [removeAll] has completed,
    the items passed to [create], and the errors written to the console,
    first the one caught by the [catch] block, then those the callbacks
    have found in [browser.runtime.lastError]. *)
Record MenuSetup := {
  removed : bool;
  created : list MenuItem;
  logged_errors : list string
}.

(** [s || d] on strings: the empty string is falsy. *)
Definition orDefault (s d : string) : string :=
  match s with
  | EmptyString => d
  | _ => s
  end.

Section Menus.
(** Whether [browser.contextMenus || browser.menus] is there, the build,
    [browser.i18n.getMessage], what the platform calls throw, and the
    [browser.runtime.lastError] that the callback of [create] finds for an
    item. *)
Variable contextMenusAPI : bool.
Variable isFirefoxBuild : bool.
Variable getMessage : string -> string.
Variable removeAllThrows : option string.
Variable createThrows : string -> option string.
Variable createLastError : string -> option string.

Definition menuContexts : list string :=
  if isFirefoxBuild then ["page"; "video"; "audio"; "all"] else ["page"; "video"].

Definition loadSubtitlesItem : MenuItem :=
  {| menu_id := "load-subtitles";
     menu_title := orDefault (getMessage "contextMenuLoadSubtitles")
                     "asbplayer: Load subtitles";
     menu_contexts := menuContexts |}.

Definition mineSubtitleItem : MenuItem :=
  {| menu_id := "mine-subtitle";
     menu_title := orDefault (getMessage "contextMenuMineSubtitle")
                     "asbplayer: Mine subtitle";
     menu_contexts := menuContexts |}.

(** The callbacks passed to [create]: [console.error] when
    [browser.runtime.lastError] is set. *)
Definition callbackErrors (items : list MenuItem) : list string :=
  flat_map (fun item => match createLastError (menu_id item) with
                        | Some e => [e]
                        | None => []
                        end) items.

(** [setupContextMenus()]: an exception of a platform call ends the [try]
    block and is written to the console; the callbacks of the [create]
    calls that were made run afterwards. *)
Definition setupContextMenus : MenuSetup :=
  if negb contextMenusAPI then
    {| removed := false; created := [];
       logged_errors := ["[Background] Context menus API not available"] |}
  else
    match removeAllThrows with
    | Some e => {| removed := false; created := []; logged_errors := [e] |}
    | None =>
        match createThrows "load-subtitles" with
        | Some e => {| removed := true; created := []; logged_errors := [e] |}
        | None =>
            match createThrows "mine-subtitle" with
            | Some e =>
                {| removed := true; created := [loadSubtitlesItem];
                   logged_errors := e :: callbackErrors [loadSubtitlesItem] |}
            | None =>
                {| removed := true;
                   created := [loadSubtitlesItem; mineSubtitleItem];
                   logged_errors :=
                     callbackErrors [loadSubtitlesItem; mineSubtitleItem] |}
            end
        end
    end.

End Menus.

(** *** The toolbar button *)

(** What a click on the toolbar button asks of the platform. *)
Inductive ActionEffect :=
| action_sendMessage (tabId : Z) (cmd : ExtensionToVideoCommand)
| action_openPopup
| action_setPopup (popup : string)
| permissions_request
| runtime_reload
| console_error (e : string).

(** [defaultAction(tab)] *)
Definition defaultAction (isMobile : bool) (t : Tab) : list ActionEffect :=
  if isMobile then
    match tab_id t with
    | Some id => [action_sendMessage id toggleVideoSelectCommand]
    | None => []
    end
  else [action_openPopup].

(** The callback of [browser.permissions.contains] on the Firefox build:
    the new value of [hasHostPermission] and what it asks for. *)
Definition containsCallback (isMobile : bool) (result : bool) : bool * list ActionEffect :=
  (result, if result && negb isMobile then [action_setPopup "popup-ui.html"] else []).

(** The [action.onClicked] listener of the Firefox build, [request] being
    what [browser.permissions.request] does when it is called. *)
Definition firefoxOnClicked (isMobile : bool) (hasHostPermission : bool) (t : Tab)
    (request : Thrown bool) : bool * list ActionEffect :=
  if hasHostPermission then (hasHostPermission, defaultAction isMobile t)
  else
    match request with
    | Ok true => (true, [permissions_request; runtime_reload])
    | Ok false => (hasHostPermission, [permissions_request])
    | Threw e => (hasHostPermission, [permissions_request; console_error e])
    end.

(** Clicks one after the other. *)
Fixpoint firefoxClicks (isMobile : bool) (hasHostPermission : bool)
    (clicks : list (Tab * Thrown bool)) : bool * list (list ActionEffect) :=
  match clicks with
  | [] => (hasHostPermission, [])
  | (t, request) :: rest =>
      let '(flag, effs) := firefoxOnClicked isMobile hasHostPermission t request in
      let '(flag', more) := firefoxClicks isMobile flag rest in
      (flag', effs :: more)
  end.

(** An effect that the default action can have. *)
Definition isDefaultEffect (eff : ActionEffect) : bool :=
  match eff with
  | action_sendMessage _ _ | action_openPopup => true
  | _ => false
  end.

(** *** Response headers *)

(** [HttpHeaders] entries: [value] is optional. *)
Record HttpHeader := { name : string; value : option string }.

Section Headers.
(** [String.prototype.toLowerCase] and [browser.runtime.id]. *)
Variable toLowerCase : string -> string.
Variable runtime_id : string.

(** The body of the loop over the headers: the header as the loop leaves
    it in the array, and the local [cspValue] when the branch is taken.
    ([undefined + string] gives the text [undefined] followed by the
    string.) *)
Definition cspBody (header : HttpHeader) : HttpHeader * option string :=
  if String.eqb (toLowerCase (name header)) "content-security-policy" then
    let cspValue := match value header with
                    | Some v => v
                    | None => "undefined"
                    end in
    let cspValue :=
      String.append cspValue
        (String.append " ; script-src moz-extension://" runtime_id) in
    (header, Some cspValue)
  else (header, None).

(** The [webRequest.onHeadersReceived] listener of the Firefox build:
    [undefined] when the details carry no headers, [{ responseHeaders }]
    otherwise. *)
Definition onHeadersReceived (responseHeaders : option (list HttpHeader))
    : option (list HttpHeader) :=
  match responseHeaders with
  | None => None
  | Some headers => Some (map (fun header => (cspBody header).1) headers)
  end.

End Headers.
End Background.

(** ** native-audio-recorder.ts *)

Module NativeAudioRecorder.

Definition NATIVE_HOST_NAME : string := "dev.asbplayer.audio".

(** The wire response of the native host; [NativeRecordingResponse] and
    [NativePingResponse] are views of it. *)
Record Response := {
  success : bool;
  audioBase64 : option string;
  format : option string;
  message : option string;
  audioSystem : option string;
  error : option string
}.

(** The messages [sendMessage] is called with. *)
Inductive Request :=
| Ping                                         (* { command: 'ping' } *)
| Record_ (duration : Z) (encodeMp3 : bool).  (* { command: 'record', ... } *)

(** What the platform delivers on a native port. *)
Inductive PortEvent :=
| OnMessage (response : Response)
| OnDisconnect (lastError : option string).

(** The behaviour of the platform and the native host for one connection:
    whether [connectNative] throws, whether [postMessage] throws, and the
    events delivered on the port, each with its time in milliseconds after
    the connection, in order of arrival. *)
Record Script := {
  connectThrows : option string;
  postThrows : option string;
  events : list (Z * PortEvent)
}.

(** The platform as the recorder sees it: the requests for which
    [connectNative] has been called, oldest first. *)
Record Platform := { connectCalls : list Request }.

(** The state of one [sendMessage] call: its promise, whether the
    60-second timer is still armed, and whether the port still delivers
    events to this end. *)
Record Conn := {
  promise : Settled Response;
  timerArmed : bool;
  portOpen : bool
}.

Definition HARD_TIMEOUT : Z := 60000.

(** The [setTimeout] callback: [port.disconnect(); reject(...)]. *)
Definition fireTimeout (c : Conn) : Conn :=
  {| promise := reject HARD_TIMEOUT "Native host response timeout" (promise c);
     timerArmed := false;
     portOpen := false |}.

(** The [onMessage] listener: [clearTimeout; port.disconnect(); resolve]. *)
Definition onMessageListener (t : Z) (response : Response) (c : Conn) : Conn :=
  {| promise := resolve t response (promise c);
     timerArmed := false;
     portOpen := false |}.

(** The [onDisconnect] listener: [clearTimeout], then reject when
    [browser.runtime.lastError] is set and only log otherwise. *)
Definition onDisconnectListener (t : Z) (lastError : option string) (c : Conn) : Conn :=
  {| promise :=
       match lastError with
       | Some m => reject t (String.append "Native host error: " m) (promise c)
       | None => promise c
       end;
     timerArmed := false;
     portOpen := false |}.

(** One event of the script. The timer, when still armed, fires before an
    event that comes at 60000 ms or later; a port that this end has
    disconnected, or that has been disconnected already, delivers nothing. *)
Definition deliver (c : Conn) (ev : Z * PortEvent) : Conn :=
  let c := if timerArmed c && (HARD_TIMEOUT <=? fst ev)%Z then fireTimeout c else c in
  if portOpen c then
    match snd ev with
    | OnMessage response => onMessageListener (fst ev) response c
    | OnDisconnect lastError => onDisconnectListener (fst ev) lastError c
    end
  else c.

(** The connection once the script has run out: a timer that is still
    armed fires. *)
Definition runPort (c : Conn) (evs : list (Z * PortEvent)) : Conn :=
  let c := fold_left deliver evs c in
  if timerArmed c then fireTimeout c else c.

(** The connection when the executor of [sendMessage] returns: the timer
    and the listeners are in place; an exception of [postMessage] has
    escaped the executor and rejected the promise. *)
Definition connected (w : Script) : Conn :=
  {| promise := match postThrows w with
                | Some err => Rejected 0 err
                | None => Pending
                end;
     timerArmed := true;
     portOpen := true |}.

(** [sendMessage(message)]: the promise it returns, by outcome. *)
Definition sendMessage (msg : Request) (w : Script) (pf : Platform)
    : Settled Response * Platform :=
  let pf' := {| connectCalls := connectCalls pf ++ [msg] |} in
  match connectThrows w with
  | Some err =>
      (Rejected 0 (String.append "Failed to connect to native host: " err), pf')
  | None => (promise (runPort (connected w) (events w)), pf')
  end.

Definition ping (w : Script) (pf : Platform) : Settled Response * Platform :=
  sendMessage Ping w pf.

(** The class instance: [port] is never assigned. *)
Record Recorder := {
  port : option unit;
  _isAvailable : option bool
}.

Definition newRecorder : Recorder := {| port := None; _isAvailable := None |}.

(** [checkAvailability()], for a call during which no other call runs on
    the instance: the promise it returns, and the instance and the
    platform once it has settled (or for ever, when it never does). Calls
    that overlap are modelled by [checkStep] below, of which this is the
    start of a call followed at once by the settling of its ping. *)
Definition checkAvailability (this : Recorder) (w : Script) (pf : Platform)
    : Settled bool * Recorder * Platform :=
  match _isAvailable this with
  | Some b => (Fulfilled 0 b, this, pf)
  | None =>
      let '(p, pf') := ping w pf in
      match p with
      | Fulfilled t response =>
          (Fulfilled t (success response),
           {| port := port this; _isAvailable := Some (success response) |}, pf')
      | Rejected t _ =>
          (Fulfilled t false,
           {| port := port this; _isAvailable := Some false |}, pf')
      | Pending => (Pending, this, pf')
      end
  end.

(** [get isAvailable()] *)
Definition isAvailable (this : Recorder) : bool :=
  match _isAvailable this with Some true => true | _ => false end.

Definition timedOut : Response :=
  {| success := false; audioBase64 := None; format := None; message := None;
     audioSystem := None; error := Some "Recording timed out" |}.

(** [Math.min(durationMs + 5000, 30000)] *)
Definition effectiveTimeout (durationMs : Z) : Z := Z.min (durationMs + 5000) 30000.

(** [setTimeout(f, ms)] runs [f] after [ms] milliseconds, a negative delay
    counting as zero. *)
Definition timerFiresAt (ms : Z) : Z := Z.max 0 ms.

(** [Promise.race([recordingPromise, timeoutPromise])], the timeout promise
    being fulfilled with [timedOut] at time [T]. The recording promise is
    the first of the two, and wins when it has settled by then; which of
    the two wins when both settle in the same millisecond is left to the
    event loop, and no property below depends on it. *)
Definition race (recordingPromise : Settled Response) (T : Z) : Settled Response :=
  match recordingPromise with
  | Pending => Fulfilled T timedOut
  | Fulfilled t v => if (t <=? T)%Z then Fulfilled t v else Fulfilled T timedOut
  | Rejected t e => if (t <=? T)%Z then Rejected t e else Fulfilled T timedOut
  end.

(** [recordAudio(durationMs, encodeMp3)] *)
Definition recordAudio (this : Recorder) (durationMs : Z) (encodeMp3 : bool)
    (w : Script) (pf : Platform) : Settled Response * Platform :=
  let timeout := effectiveTimeout durationMs in
  let '(recordingPromise, pf') := sendMessage (Record_ durationMs encodeMp3) w pf in
  (race recordingPromise (timerFiresAt timeout), pf').

(** *** The module: the heap of instances and the singleton variable *)

Record ModuleState := {
  heap : list Recorder;
  nativeAudioRecorder : option nat     (* [null] or a reference *)
}.

Definition initial : ModuleState := {| heap := []; nativeAudioRecorder := None |}.

(** [new NativeAudioRecorder()] *)
Definition construct (m : ModuleState) : nat * ModuleState :=
  (length (heap m),
   {| heap := heap m ++ [newRecorder]; nativeAudioRecorder := nativeAudioRecorder m |}).

(** [getNativeAudioRecorder()] *)
Definition getNativeAudioRecorder (m : ModuleState) : nat * ModuleState :=
  match nativeAudioRecorder m with
  | None =>
      let '(r, m') := construct m in
      (r, {| heap := heap m'; nativeAudioRecorder := Some r |})
  | Some r => (r, m)
  end.

(** Method calls through a reference. A reference that is not in the heap
    cannot be produced by the program; such a call does nothing here. *)
Definition checkAvailabilityAt (r : nat) (w : Script) (m : ModuleState) (pf : Platform)
    : Settled bool * ModuleState * Platform :=
  match heap m !! r with
  | Some this =>
      let '(p, this', pf') := checkAvailability this w pf in
      (p, {| heap := <[r := this']> (heap m);
             nativeAudioRecorder := nativeAudioRecorder m |}, pf')
  | None => (Pending, m, pf)
  end.

Definition isAvailableAt (r : nat) (m : ModuleState) : bool :=
  match heap m !! r with
  | Some this => isAvailable this
  | None => false
  end.

(** What the rest of the extension can do with this module. *)
Inductive Op :=
| OpGet                                    (* getNativeAudioRecorder() *)
| OpNew                                    (* new NativeAudioRecorder() *)
| OpCheck (r : nat) (w : Script)           (* r.checkAvailability() *)
| OpRecord (r : nat) (durationMs : Z) (encodeMp3 : bool) (w : Script).

(** One operation; the references that [getNativeAudioRecorder] returns are
    collected in the third component. *)
Definition step (s : ModuleState * Platform * list nat) (op : Op)
    : ModuleState * Platform * list nat :=
  let '(m, pf, got) := s in
  match op with
  | OpGet => let '(r, m') := getNativeAudioRecorder m in (m', pf, got ++ [r])
  | OpNew => let '(_, m') := construct m in (m', pf, got)
  | OpCheck r w =>
      let '(_, m', pf') := checkAvailabilityAt r w m pf in (m', pf', got)
  | OpRecord r d e w =>
      match heap m !! r with
      | Some this => let '(_, pf') := recordAudio this d e w pf in (m, pf', got)
      | None => (m, pf, got)
      end
  end.

Definition run (ops : list Op) (s : ModuleState * Platform * list nat)
    : ModuleState * Platform * list nat :=
  fold_left step ops s.

(** *** Properties as predicates, and sample scripts *)

(** The promise settles after time [T], or never. *)
Definition settlesAfter {A} (T : Z) (p : Settled A) : Prop :=
  match p with
  | Pending => True
  | Fulfilled t _ | Rejected t _ => (T < t)%Z
  end.

(** A failure result: a rejection, or a response with [success: false]. *)
Definition isFailure (p : Settled Response) : Prop :=
  match p with
  | Pending => False
  | Fulfilled _ response => success response = false
  | Rejected _ _ => True
  end.

(** A record call that answers [{success: false}] without calling
    [connectNative]. *)
Definition shortCircuits (this : Recorder) (durationMs : Z) (encodeMp3 : bool)
    (w : Script) (pf : Platform) : Prop :=
  connectCalls (recordAudio this durationMs encodeMp3 w pf).2 = connectCalls pf
  /\ exists t response,
       (recordAudio this durationMs encodeMp3 w pf).1 = Fulfilled t response
       /\ success response = false.

(** A record call of which the promise is not rejected. *)
Definition neverRejects (this : Recorder) (durationMs : Z) (encodeMp3 : bool)
    (w : Script) (pf : Platform) : Prop :=
  isRejected (recordAudio this durationMs encodeMp3 w pf).1 = false.

(** A call that has settled by the 60-second mark. *)
Definition settledWithinHardTimeout {A} (p : Settled A) : Prop :=
  match p with
  | Pending => False
  | Fulfilled t _ | Rejected t _ => (t <= HARD_TIMEOUT)%Z
  end.

(** [checkAvailability()] called once per script, one call after the
    other. *)
Fixpoint checkRepeatedly (ws : list Script) (this : Recorder) (pf : Platform)
    : list (Settled bool) * Recorder * Platform :=
  match ws with
  | [] => ([], this, pf)
  | w :: rest =>
      let '(p, this', pf') := checkAvailability this w pf in
      let '(ps, this'', pf'') := checkRepeatedly rest this' pf' in
      (p :: ps, this'', pf'')
  end.

Definition noCalls : Platform := {| connectCalls := [] |}.

Definition recording : Response :=
  {| success := true; audioBase64 := Some "UklGRg=="; format := Some "wav";
     message := None; audioSystem := None; error := None |}.

Definition noAudioSystem : Response :=
  {| success := false; audioBase64 := None; format := None; message := None;
     audioSystem := None; error := Some "No audio system detected" |}.

(** The host answers with a recording after [t] milliseconds. *)
Definition hostRecords (t : Z) : Script :=
  {| connectThrows := None; postThrows := None;
     events := [(t, OnMessage recording)] |}.

(** The host answers a ping with [{success: false}]. *)
Definition hostWithoutAudio : Script :=
  {| connectThrows := None; postThrows := None;
     events := [(40%Z, OnMessage noAudioSystem)] |}.

(** The host answers and then exits. *)
Definition hostRepliesAndExits : Script :=
  {| connectThrows := None; postThrows := None;
     events := [(40%Z, OnMessage recording); (45%Z, OnDisconnect None)] |}.

(** The host exits after a second without having written anything, and the
    platform reports no error. *)
Definition cleanExit : Script :=
  {| connectThrows := None; postThrows := None;
     events := [(1000%Z, OnDisconnect None)] |}.

(** [postMessage] throws on the port just connected. *)
Definition postFails : Script :=
  {| connectThrows := None;
     postThrows := Some "Error: Attempt to postMessage on disconnected port";
     events := [] |}.

(** The platform does not find the host: the port is disconnected at once,
    with a platform error. *)
Definition hostMissing : Script :=
  {| connectThrows := None; postThrows := None;
     events := [(20%Z, OnDisconnect (Some "No such native application dev.asbplayer.audio"))] |}.

(** [connectNative] throws. *)
Definition connectFails : Script :=
  {| connectThrows := Some "Error: Access to native messaging host is forbidden";
     postThrows := None; events := [] |}.

(** *** Calls of checkAvailability that overlap *)

(** [checkAvailability()] is suspended at [await this.ping()], between its
    test of [_isAvailable] and its write to it, and other calls on the
    instance run in the meantime. An instance with its calls in flight:
    the calls suspended at the [await], each with what its ping comes to,
    and the calls that have returned, each with its answer, oldest first. *)
Record Checking := {
  instance : Recorder;
  awaiting : list (nat * Settled Response);
  platform : Platform;
  answered : list (nat * bool)
}.

Inductive CheckEvent :=
| CallStarts (call : nat) (w : Script)   (* a caller calls [checkAvailability()] *)
| PingSettles (call : nat).              (* the ping of a suspended call settles *)

Fixpoint lookupCall (call : nat) (l : list (nat * Settled Response))
    : option (Settled Response) :=
  match l with
  | [] => None
  | (c, p) :: rest => if Nat.eqb c call then Some p else lookupCall call rest
  end.

Fixpoint removeCall (call : nat) (l : list (nat * Settled Response))
    : list (nat * Settled Response) :=
  match l with
  | [] => []
  | (c, p) :: rest => if Nat.eqb c call then rest else (c, p) :: removeCall call rest
  end.

(** One event. A call that starts tests [_isAvailable]: it returns the
    cached boolean, or it connects for its ping and is suspended. When the
    ping of a suspended call settles, the call resumes after the [await]
    (or in the [catch] block), writes [_isAvailable] and returns; a ping
    that stays pending never resumes its call. *)
Definition checkStep (st : Checking) (ev : CheckEvent) : Checking :=
  match ev with
  | CallStarts call w =>
      match _isAvailable (instance st) with
      | Some b =>
          {| instance := instance st; awaiting := awaiting st;
             platform := platform st; answered := answered st ++ [(call, b)] |}
      | None =>
          {| instance := instance st;
             awaiting := awaiting st ++ [(call, (ping w (platform st)).1)];
             platform := (ping w (platform st)).2;
             answered := answered st |}
      end
  | PingSettles call =>
      match lookupCall call (awaiting st) with
      | Some (Fulfilled _ response) =>
          {| instance := {| port := port (instance st);
                            _isAvailable := Some (success response) |};
             awaiting := removeCall call (awaiting st);
             platform := platform st;
             answered := answered st ++ [(call, success response)] |}
      | Some (Rejected _ _) =>
          {| instance := {| port := port (instance st); _isAvailable := Some false |};
             awaiting := removeCall call (awaiting st);
             platform := platform st;
             answered := answered st ++ [(call, false)] |}
      | Some Pending | None => st
      end
  end.

Definition checkRun (evs : list CheckEvent) (st : Checking) : Checking :=
  fold_left checkStep evs st.










(** *** Invariants of a connection and of the module *)

(** The timer is armed exactly as long as the port delivers events. *)
Definition timerFollowsPort (c : Conn) : Prop := timerArmed c = portOpen c.

(** Where an outcome of [sendMessage] can come from. *)
Definition explained (w : Script) (p : Settled Response) : Prop :=
  match p with
  | Pending => True
  | Fulfilled t response => In (t, OnMessage response) (events w)
  | Rejected t e =>
      postThrows w = Some e
      \/ (exists m, In (t, OnDisconnect (Some m)) (events w)
                    /\ e = String.append "Native host error: " m)
      \/ (t = HARD_TIMEOUT /\ e = "Native host response timeout")
  end.

(** What the timer does guarantee: a call that has settled has settled by
    the 60-second mark, and a call that never settles has seen a
    disconnection without a platform error before that mark. *)
Definition boundedOrCleared (w : Script) (c : Conn) : Prop :=
  timerArmed c = portOpen c
  /\ match promise c with
     | Pending =>
         portOpen c = true
         \/ exists t, (t < HARD_TIMEOUT)%Z /\ In (t, OnDisconnect None) (events w)
     | Fulfilled t _ | Rejected t _ => (t <= HARD_TIMEOUT)%Z
     end.

(** The instance at [r] has cached the answer [b]. *)
Definition cachedAt (r : nat) (b : bool) (m : ModuleState) : Prop :=
  exists this, heap m !! r = Some this /\ _isAvailable this = Some b.

(** The module variable, when set, refers into the heap, and every
    reference handed out so far is the one it holds. *)
Definition handedOut (s : ModuleState * Platform * list nat) : Prop :=
  (forall r, nativeAudioRecorder s.1.1 = Some r -> r < length (heap s.1.1))
  /\ (forall r, In r s.2 -> nativeAudioRecorder s.1.1 = Some r).

(** The script of a host from which nothing arrives up to and including
    time [T], [connectNative] and [postMessage] having succeeded. *)
Definition quietUntil (T : Z) (w : Script) : Prop :=
  connectThrows w = None /\ postThrows w = None
  /\ Forall (fun ev => (T < ev.1)%Z) (events w).

(** The operations that call a method of an instance. *)
Definition connects (op : Op) : bool :=
  match op with
  | OpCheck _ _ | OpRecord _ _ _ _ => true
  | OpGet | OpNew => false
  end.

End NativeAudioRecorder.

(** ** sidebar-service.ts *)

Module SidebarService.

(** The outcome of an [async] method: its promise is fulfilled with a
    value, or rejected with an error (a [throw] in the body, or a rejected
    promise under [await]). *)
Inductive Outcome (A : Type) : Type :=
| Resolves (v : A)
| Rejects (e : string).
Arguments Resolves {A} v.
Arguments Rejects {A} e.

Section Service.
(** The browser's state, and the platform calls the service makes. *)
Variable Browser : Type.

Record Api := {
  sidebarAction_open : Browser -> Outcome unit * Browser;
  sidebarAction_close : Browser -> Outcome unit * Browser;
  sidebarAction_toggle : Browser -> Outcome unit * Browser;
  sidebarAction_isOpen : Browser -> Outcome bool * Browser;
  sidebarAction_setPanel : string -> Browser -> Outcome unit * Browser;
  sidebarAction_setTitle : string -> Browser -> Outcome unit * Browser;
  windows_getLastFocused : Browser -> Outcome (option Z) * Browser;
  sidePanel_open : option Z -> Browser -> Outcome unit * Browser;
  sidePanel_setOptions : string -> Browser -> Outcome unit * Browser;
  console_warn : string -> Browser -> Browser
}.

(** [isFirefoxBuild] of [build-flags.ts], a constant of the build. *)
Variable isFirefoxBuild : bool.
Variable api : Api.

(** [open()] *)
Definition open (b : Browser) : Outcome unit * Browser :=
  if isFirefoxBuild then sidebarAction_open api b
  else
    match windows_getLastFocused api b with
    | (Resolves windowId, b') => sidePanel_open api windowId b'
    | (Rejects e, b') => (Rejects e, b')
    end.

(** [close()] *)
Definition close (b : Browser) : Outcome unit * Browser :=
  if isFirefoxBuild then sidebarAction_close api b
  else
    (Resolves tt,
     console_warn api "Chrome side panel close() called - not directly supported" b).

(** [toggle()] *)
Definition toggle (b : Browser) : Outcome unit * Browser :=
  if isFirefoxBuild then sidebarAction_toggle api b
  else (Rejects "Chrome toggle should be handled by toggle-side-panel-handler", b).

(** [isOpen()] *)
Definition isOpen (b : Browser) : Outcome bool * Browser :=
  if isFirefoxBuild then sidebarAction_isOpen api b
  else (Resolves false, b).

(** [setPanel(panelPath)] *)
Definition setPanel (panelPath : string) (b : Browser) : Outcome unit * Browser :=
  if isFirefoxBuild then sidebarAction_setPanel api panelPath b
  else sidePanel_setOptions api panelPath b.

(** [setTitle(title)] *)
Definition setTitle (title : string) (b : Browser) : Outcome unit * Browser :=
  if isFirefoxBuild then sidebarAction_setTitle api title b
  else (Resolves tt, console_warn api "Chrome side panel setTitle() not supported" b).

End Service.

Arguments sidebarAction_toggle {Browser} _ _.
Arguments sidebarAction_isOpen {Browser} _ _.
Arguments toggle {Browser} _ _ _.
Arguments isOpen {Browser} _ _ _.

(** A browser of which only the side panel matters, its platform calls
    all succeeding. *)
Record PanelBrowser := { panelOpen : bool; warnings : list string }.

Definition panelApi : Api PanelBrowser :=
  {| sidebarAction_open := fun b =>
       (Resolves tt, {| panelOpen := true; warnings := warnings b |});
     sidebarAction_close := fun b =>
       (Resolves tt, {| panelOpen := false; warnings := warnings b |});
     sidebarAction_toggle := fun b =>
       (Resolves tt, {| panelOpen := negb (panelOpen b); warnings := warnings b |});
     sidebarAction_isOpen := fun b => (Resolves (panelOpen b), b);
     sidebarAction_setPanel := fun _ b => (Resolves tt, b);
     sidebarAction_setTitle := fun _ b => (Resolves tt, b);
     windows_getLastFocused := fun b => (Resolves (Some 1%Z), b);
     sidePanel_open := fun _ b =>
       (Resolves tt, {| panelOpen := true; warnings := warnings b |});
     sidePanel_setOptions := fun _ b => (Resolves tt, b);
     console_warn := fun msg b =>
       {| panelOpen := panelOpen b; warnings := warnings b ++ [msg] |} |}.


(** *** The platform calls a method makes *)

Inductive Call :=
| call_sidebarAction_open
| call_sidebarAction_close
| call_sidebarAction_toggle
| call_sidebarAction_isOpen
| call_sidebarAction_setPanel (panel : string)
| call_sidebarAction_setTitle (title : string)
| call_windows_getLastFocused
| call_sidePanel_open (windowId : option Z)
| call_sidePanel_setOptions (path : string)
| call_console_warn (msg : string).

(** A platform call that also writes itself to a log. *)
Definition logged {B A : Type} (c : Call) (f : B -> Outcome A * B)
    (s : B * list Call) : Outcome A * (B * list Call) :=
  ((f s.1).1, ((f s.1).2, s.2 ++ [c])).

(** The platform [api] with a log of the calls made. *)
Definition traced {B : Type} (api : Api B) : Api (B * list Call) :=
  {| sidebarAction_open := logged call_sidebarAction_open (sidebarAction_open B api);
     sidebarAction_close := logged call_sidebarAction_close (sidebarAction_close B api);
     sidebarAction_toggle := logged call_sidebarAction_toggle (sidebarAction_toggle api);
     sidebarAction_isOpen := logged call_sidebarAction_isOpen (sidebarAction_isOpen api);
     sidebarAction_setPanel := fun p =>
       logged (call_sidebarAction_setPanel p) (sidebarAction_setPanel B api p);
     sidebarAction_setTitle := fun t =>
       logged (call_sidebarAction_setTitle t) (sidebarAction_setTitle B api t);
     windows_getLastFocused :=
       logged call_windows_getLastFocused (windows_getLastFocused B api);
     sidePanel_open := fun w => logged (call_sidePanel_open w) (sidePanel_open B api w);
     sidePanel_setOptions := fun p =>
       logged (call_sidePanel_setOptions p) (sidePanel_setOptions B api p);
     console_warn := fun msg s => (console_warn B api msg s.1, s.2 ++ [call_console_warn msg]) |}.

Definition isSidebarAction (c : Call) : bool :=
  match c with
  | call_sidebarAction_open | call_sidebarAction_close | call_sidebarAction_toggle
  | call_sidebarAction_isOpen | call_sidebarAction_setPanel _
  | call_sidebarAction_setTitle _ => true
  | _ => false
  end.

(** The methods of the service. *)
Inductive Method :=
| m_open
| m_close
| m_toggle
| m_isOpen
| m_setPanel (panelPath : string)
| m_setTitle (title : string).

(** The error a promise is rejected with, if it is. *)
Definition rejection {A : Type} (o : Outcome A) : option string :=
  match o with
  | Resolves _ => None
  | Rejects e => Some e
  end.

(** A call of a method: whether it fails, and the browser afterwards. *)
Definition invoke {B : Type} (isFirefoxBuild : bool) (api : Api B) (m : Method) (b : B)
    : option string * B :=
  match m with
  | m_open => (rejection (open B isFirefoxBuild api b).1, (open B isFirefoxBuild api b).2)
  | m_close => (rejection (close B isFirefoxBuild api b).1, (close B isFirefoxBuild api b).2)
  | m_toggle => (rejection (toggle isFirefoxBuild api b).1, (toggle isFirefoxBuild api b).2)
  | m_isOpen => (rejection (isOpen isFirefoxBuild api b).1, (isOpen isFirefoxBuild api b).2)
  | m_setPanel p =>
      (rejection (setPanel B isFirefoxBuild api p b).1, (setPanel B isFirefoxBuild api p b).2)
  | m_setTitle t =>
      (rejection (setTitle B isFirefoxBuild api t b).1, (setTitle B isFirefoxBuild api t b).2)
  end.
End SidebarService.

(** * Properties of the message listener *)

Module BackgroundProofs.
Import Background.

Section Scan.
Context {State MessageSender : Type}.
Implicit Types (h : CommandHandler State MessageSender) (request : Command).

Lemma senderMatches_spec h request :
  senderMatches h request = true <->
  match handler_sender h with
  | SenderString s => s = sender request
  | SenderArray l => In (sender request) l
  end.
Proof.
  unfold senderMatches. destruct (handler_sender h) as [s|l].
  - apply String.eqb_eq.
  - rewrite existsb_exists. split.
    + intros (x & Hin & Heq). apply String.eqb_eq in Heq. by subst.
    + intros Hin. exists (sender request). split; [done|]. apply String.eqb_refl.
Qed.

Lemma commandMatches_spec h request :
  commandMatches h request = true <->
  handler_command h = None
  \/ handler_command h = Some (command (message request)).
Proof.
  unfold commandMatches. destruct (handler_command h) as [c|].
  - rewrite String.eqb_eq. split.
    + intros ->. by right.
    + intros [?|[= ->]]; done.
  - split; [by left | done].
Qed.

Lemma accepts_spec h request :
  accepts h request <->
  senderMatches h request && commandMatches h request = true.
Proof.
  unfold accepts. rewrite andb_true_iff, senderMatches_spec, commandMatches_spec.
  done.
Qed.

Lemma accepts_dec h request : {accepts h request} + {~ accepts h request}.
Proof.
  destruct (senderMatches h request && commandMatches h request) eqn:E.
  - left. by apply accepts_spec.
  - right. rewrite accepts_spec, E. done.
Qed.

(** A handler that does not accept the request is skipped. *)
Lemma scan_skip i h hs request sm st :
  ~ accepts h request ->
  scan i (h :: hs) request sm st = scan (S i) hs request sm st.
Proof.
  rewrite accepts_spec. simpl.
  destruct (senderMatches h request), (commandMatches h request); simpl; done.
Qed.

(** A handler that accepts the request is called, and the scan ends. *)
Lemma scan_hit i h hs request sm st :
  accepts h request ->
  invoked (scan i (h :: hs) request sm st) = [i]
  /\ final (scan i (h :: hs) request sm st) = (handle h request sm st).2
  /\ result (scan i (h :: hs) request sm st) =
     match (handle h request sm st).1 with
     | Throws e => Uncaught e
     | Returns JsTrue => ReturnTrue
     | Returns _ => ReturnUndefined
     end.
Proof.
  rewrite accepts_spec, andb_true_iff. intros [Hs Hc]. simpl.
  rewrite Hs, Hc. destruct (handle h request sm st) as [[[]|] st']; done.
Qed.

(** When nothing accepts the request, nothing is called. *)
Lemma scan_none i hs request sm st :
  (forall h, In h hs -> ~ accepts h request) ->
  scan i hs request sm st =
  {| result := ReturnUndefined; invoked := []; final := st |}.
Proof.
  revert i. induction hs as [|h hs IH]; intros i Hall; [done|].
  rewrite scan_skip by (apply Hall; by left).
  apply IH. intros h' Hin. apply Hall. by right.
Qed.

(** The scan calls the first accepting handler, whatever precedes it. *)
Lemma scan_first i pre h post request sm st :
  (forall h', In h' pre -> ~ accepts h' request) ->
  accepts h request ->
  scan i (pre ++ h :: post) request sm st =
  scan (i + length pre) (h :: post) request sm st.
Proof.
  revert i. induction pre as [|p pre IH]; intros i Hpre Hacc.
  - simpl app. by rewrite Nat.add_0_r.
  - change ((p :: pre) ++ h :: post) with (p :: (pre ++ h :: post)).
    rewrite scan_skip by (apply Hpre; by left).
    rewrite IH; [|intros h' Hin; apply Hpre; by right|done].
    f_equal. simpl. lia.
Qed.

(** Every list splits at its first accepting handler, if it has one. *)
Lemma first_accepting hs request :
  (forall h, In h hs -> ~ accepts h request)
  \/ exists pre h post,
       hs = pre ++ h :: post
       /\ (forall h', In h' pre -> ~ accepts h' request)
       /\ accepts h request.
Proof.
  induction hs as [|h hs IH].
  - left. intros h [].
  - destruct (accepts_dec h request) as [Hacc|Hno].
    + right. exists [], h, hs. split; [done|]. split; [intros h' []|done].
    + destruct IH as [Hall|(pre & h0 & post & -> & Hpre & Hacc)].
      * left. intros h' [<-|Hin]; [done|by apply Hall].
      * right. exists (h :: pre), h0, post. split; [done|].
        split; [|done]. intros h' [<-|Hin]; [done|by apply Hpre].
Qed.

Lemma lookup_middle (pre : list (CommandHandler State MessageSender)) h post :
  (pre ++ h :: post) !! length pre = Some h.
Proof. by rewrite lookup_app_r, Nat.sub_diag by lia. Qed.

Lemma lookup_before (pre : list (CommandHandler State MessageSender)) h post j h' :
  j < length pre -> (pre ++ h :: post) !! j = Some h' -> In h' pre.
Proof.
  intros Hj. rewrite lookup_app_l by done. intros Hl.
  apply list_elem_of_In. by eapply list_elem_of_lookup_2.
Qed.

(** C2. For every envelope the listener calls at most one handler. A
    handler that is called is the first, in list order, of which the
    accepted senders contain the envelope's sender and the accepted command
    is the wildcard or the envelope's command; it is called exactly once
    (the state afterwards is the state after one call of [handle]) and no
    later handler is called. When some handler accepts the envelope, one
    is called; when none is called, the state is unchanged. *)
Theorem onMessage_invokes_first_match_only
    (handlers : list (CommandHandler State MessageSender)) request sm st :
  let d := onMessage handlers request sm st in
  length (invoked d) <= 1
  /\ (forall i, In i (invoked d) ->
        invoked d = [i]
        /\ exists h,
             handlers !! i = Some h
             /\ accepts h request
             /\ (forall j h', j < i -> handlers !! j = Some h' -> ~ accepts h' request)
             /\ final d = (handle h request sm st).2
             /\ result d = match (handle h request sm st).1 with
                           | Throws e => Uncaught e
                           | Returns JsTrue => ReturnTrue
                           | Returns _ => ReturnUndefined
                           end)
  /\ ((exists h, In h handlers /\ accepts h request) -> invoked d <> [])
  /\ (invoked d = [] -> final d = st /\ result d = ReturnUndefined).
Proof.
  intros d. subst d. unfold onMessage.
  destruct (first_accepting handlers request)
    as [Hnone|(pre & h & post & -> & Hpre & Hacc)].
  - rewrite (scan_none 0 handlers request sm st Hnone). simpl.
    split; [lia|]. split; [intros i []|]. split; [|done].
    intros (h & Hin & Hacc). by destruct (Hnone h Hin).
  - rewrite scan_first by done.
    destruct (scan_hit (0 + length pre) h post request sm st Hacc)
      as (Hinv & Hfin & Hres).
    rewrite Hinv, Hfin, Hres. simpl.
    split; [lia|]. split; [|split; [done|done]].
    intros i [<-|[]]. split; [done|]. exists h.
    split; [apply lookup_middle|]. split; [done|].
    split; [|done]. intros j h' Hj Hl. apply Hpre. by eapply lookup_before.
Qed.

(** C4, as amended. The listener has no [try]/[catch]: when the handler it
    calls throws, the exception escapes the listener; only that handler has
    been called, and the state is the one the handler left. The listener
    keeps no state of its own, so the runtime delivers the next message to
    the same list of handlers: every message gets its own dispatch. *)
Theorem handler_exception_escapes_listener
    (handlers : list (CommandHandler State MessageSender)) request sm st
    i h e st' :
  handlers !! i = Some h ->
  accepts h request ->
  (forall j h', j < i -> handlers !! j = Some h' -> ~ accepts h' request) ->
  handle h request sm st = (Throws e, st') ->
  onMessage handlers request sm st =
    {| result := Uncaught e; invoked := [i]; final := st' |}
  /\ forall rest,
       deliverAll handlers ((request, sm) :: rest) st =
         {| result := Uncaught e; invoked := [i]; final := st' |}
         :: deliverAll handlers rest st'
       /\ length (deliverAll handlers rest st') = length rest.
Proof.
  intros Hl Hacc Hfirst Hthrow.
  assert (Hd : onMessage handlers request sm st =
               {| result := Uncaught e; invoked := [i]; final := st' |}).
  { pose proof (lookup_lt_Some _ _ _ Hl) as Hi.
    unfold onMessage. rewrite <- (take_drop_middle handlers i h Hl).
    rewrite scan_first; [|intros h' Hin|done].
    - rewrite length_take, Nat.min_l by lia.
      destruct (scan_hit (0 + i) h (drop (S i) handlers) request sm st Hacc)
        as (Hinv & Hfin & Hres).
      rewrite Hthrow in Hfin, Hres. cbn [fst snd] in Hfin, Hres.
      change (0 + i) with i in *.
      destruct (scan i (h :: drop (S i) handlers) request sm st)
        as [r inv f].
      cbn [invoked final result] in *. congruence.
    - apply list_elem_of_In, list_elem_of_lookup in Hin as [j Hj].
      apply lookup_take_Some in Hj as [Hj Hlt]. by eapply Hfirst. }
  split; [done|]. intros rest. split.
  - simpl. by rewrite Hd.
  - clear. revert st'. induction rest as [|[r s] rest IH]; intros st'; [done|].
    simpl. by rewrite IH.
Qed.

(** ** Further properties of the listener *)

(** The position at which a scan starts only shows in the positions it
    reports. *)
Lemma scan_shift i j (hs : list (CommandHandler State MessageSender)) request sm st :
  result (scan i hs request sm st) = result (scan j hs request sm st)
  /\ final (scan i hs request sm st) = final (scan j hs request sm st)
  /\ length (invoked (scan i hs request sm st)) =
     length (invoked (scan j hs request sm st)).
Proof.
  revert i j. induction hs as [|h hs IH]; intros i j; [done|].
  simpl. destruct (senderMatches h request); [|apply IH].
  destruct (commandMatches h request); [|apply IH].
  destruct (handle h request sm st) as [[[]|] st']; done.
Qed.

Lemma matches_accepts h request : matches request h = true <-> accepts h request.
Proof. unfold matches. by rewrite accepts_spec. Qed.

Lemma scan_filter i (hs : list (CommandHandler State MessageSender)) request sm st :
  result (scan i hs request sm st) =
    result (scan 0 (List.filter (matches request) hs) request sm st)
  /\ final (scan i hs request sm st) =
    final (scan 0 (List.filter (matches request) hs) request sm st)
  /\ length (invoked (scan i hs request sm st)) =
    length (invoked (scan 0 (List.filter (matches request) hs) request sm st)).
Proof.
  revert i. induction hs as [|h hs IH]; intros i; [done|].
  cbn [List.filter]. destruct (matches request h) eqn:E.
  - apply matches_accepts in E.
    destruct (scan_hit i h hs request sm st E) as (-> & -> & ->).
    destruct (scan_hit 0 h (List.filter (matches request) hs) request sm st E)
      as (-> & -> & ->).
    done.
  - rewrite scan_skip; [apply IH|].
    rewrite <- matches_accepts, E. done.
Qed.

(** A handler that does not accept the envelope has no influence on its
    dispatch: the listener returns the same, and leaves the same state, as
    it would with only the accepting handlers registered. *)
Theorem onMessage_ignores_other_handlers
    (handlers : list (CommandHandler State MessageSender)) request sm st :
  result (onMessage handlers request sm st) =
    result (onMessage (List.filter (matches request) handlers) request sm st)
  /\ final (onMessage handlers request sm st) =
    final (onMessage (List.filter (matches request) handlers) request sm st)
  /\ length (invoked (onMessage handlers request sm st)) =
    length (invoked (onMessage (List.filter (matches request) handlers) request sm st)).
Proof. apply scan_filter. Qed.

(** Two neighbouring handlers of which at most one accepts the envelope can
    change places without a change in what the listener returns and in the
    state it leaves. *)
Theorem onMessage_swap_disjoint
    (pre post : list (CommandHandler State MessageSender)) h1 h2 request sm st :
  ~ (accepts h1 request /\ accepts h2 request) ->
  result (onMessage (pre ++ h1 :: h2 :: post) request sm st) =
    result (onMessage (pre ++ h2 :: h1 :: post) request sm st)
  /\ final (onMessage (pre ++ h1 :: h2 :: post) request sm st) =
    final (onMessage (pre ++ h2 :: h1 :: post) request sm st).
Proof.
  intros Hdis. unfold onMessage.
  destruct (scan_filter 0 (pre ++ h1 :: h2 :: post) request sm st) as (-> & -> & _).
  destruct (scan_filter 0 (pre ++ h2 :: h1 :: post) request sm st) as (-> & -> & _).
  assert (Heq : List.filter (matches request) (pre ++ h1 :: h2 :: post) =
                List.filter (matches request) (pre ++ h2 :: h1 :: post)).
  { rewrite !List.filter_app. f_equal. cbn [List.filter].
    destruct (matches request h1) eqn:E1, (matches request h2) eqn:E2; try done.
    exfalso. apply Hdis. by rewrite <- !matches_accepts. }
  by rewrite Heq.
Qed.

(** The listener answers [true], which keeps the reply channel open, only
    when the handler it has called returned exactly [true]: a handler that
    returns a promise, [false] or nothing, or that throws, does not. *)
Theorem onMessage_returns_true_iff
    (handlers : list (CommandHandler State MessageSender)) request sm st :
  result (onMessage handlers request sm st) = ReturnTrue <->
  exists i h,
    invoked (onMessage handlers request sm st) = [i]
    /\ handlers !! i = Some h
    /\ (handle h request sm st).1 = Returns JsTrue.
Proof.
  unfold onMessage.
  destruct (first_accepting handlers request)
    as [Hnone|(pre & h & post & -> & Hpre & Hacc)].
  - rewrite (scan_none 0 handlers request sm st Hnone). simpl.
    split; [done|]. by intros (i & h & ? & _).
  - rewrite scan_first by done.
    destruct (scan_hit (0 + length pre) h post request sm st Hacc)
      as (Hinv & _ & Hres).
    rewrite Hinv, Hres. split.
    + intros Hr. exists (0 + length pre), h. split; [done|].
      split; [apply lookup_middle|].
      destruct (handle h request sm st).1 as [[]|]; done.
    + intros (i & h' & [= <-] & Hl & Hh). simpl in Hl.
      rewrite lookup_middle in Hl. injection Hl as <-. by rewrite Hh.
Qed.

End Scan.

(** The exception of [throwingHandler] is observed by the caller of the
    listener. *)
Lemma exception_not_caught :
  ~ caughtAtBus [throwingHandler; catchAllHandler] recordMedia tt 0.
Proof. intros H. by apply (H "no active tab"). Qed.

Lemma handler_exception_escapes_listener_witness :
  onMessage [throwingHandler; catchAllHandler] recordMedia tt 0 =
    {| result := Uncaught "no active tab"; invoked := [0]; final := 1 |}
  /\ forall rest,
       deliverAll [throwingHandler; catchAllHandler] ((recordMedia, tt) :: rest) 0 =
         {| result := Uncaught "no active tab"; invoked := [0]; final := 1 |}
         :: deliverAll [throwingHandler; catchAllHandler] rest 1
       /\ length (deliverAll [throwingHandler; catchAllHandler] rest 1) = length rest.
Proof.
  apply (handler_exception_escapes_listener
           [throwingHandler; catchAllHandler] recordMedia tt 0 0 throwingHandler).
  - reflexivity.
  - split; [reflexivity | right; reflexivity].
  - intros j h' Hj. lia.
  - reflexivity.
Defined.

(** The message after the failing one is dispatched as usual. *)
Example next_message_after_exception :
  deliverAll [throwingHandler; catchAllHandler]
    [(recordMedia, tt); (heartbeat, tt)] 0 =
  [ {| result := Uncaught "no active tab"; invoked := [0]; final := 1 |};
    {| result := ReturnTrue; invoked := [1]; final := 2 |} ].
Proof. reflexivity. Qed.

(** The handler for one sender does not accept a message of another. *)
Lemma onMessage_swap_disjoint_witness :
  result (onMessage ([] ++ [throwingHandler; catchAllHandler]) heartbeat tt 0) =
    result (onMessage ([] ++ [catchAllHandler; throwingHandler]) heartbeat tt 0)
  /\ final (onMessage ([] ++ [throwingHandler; catchAllHandler]) heartbeat tt 0) =
    final (onMessage ([] ++ [catchAllHandler; throwingHandler]) heartbeat tt 0).
Proof.
  apply (onMessage_swap_disjoint [] [] throwingHandler catchAllHandler heartbeat tt 0).
  intros [[H _] _]. discriminate H.
Defined.

(** ** Keyboard shortcuts *)

Lemma sameId_eq a b : sameId a b = true <-> a = b.
Proof.
  destruct a as [x|], b as [y|]; simpl; try (split; done).
  rewrite Z.eqb_eq. split; [by intros ->|by intros [= ->]].
Qed.

Lemma differs_eq a b : differs a b = false <-> a = b.
Proof.
  destruct a as [x|], b as [y|]; simpl; try (split; done).
  rewrite negb_false_iff, String.eqb_eq. split; [by intros ->|by intros [= ->]].
Qed.

Lemma findTab_Some tabs id t : findTab tabs id = Some t -> activeTab tabs id.
Proof.
  unfold findTab. intros H. apply find_some in H as [Hin Hid].
  exists t. split; [done|]. by apply sameId_eq.
Qed.

Lemma findTab_None tabs id : findTab tabs id = None -> ~ activeTab tabs id.
Proof.
  unfold findTab. intros H (t & Hin & Hid).
  pose proof (find_none _ _ H t Hin) as Hf. cbn beta in Hf.
  apply sameId_eq in Hid. congruence.
Qed.

Lemma toVideoElement_wellTargeted tabs msg :
  wellTargeted tabs (publishCommandToVideoElements (toVideoElement tabs msg)).
Proof.
  intros v. unfold toVideoElement.
  destruct (findTab tabs (tab_id (tab v))) as [t|] eqn:E.
  - split; [by eapply findTab_Some|done].
  - by apply findTab_None.
Qed.

Lemma toAsbplayer_wellTargeted tabs msg :
  wellTargeted tabs (publishCommandToAsbplayers (toAsbplayer tabs msg)).
Proof.
  intros a. unfold toAsbplayer, validAsbplayer.
  destruct (sidePanel a); [by left|].
  destruct (asbplayer_tab a) as [t|] eqn:Et.
  - destruct (findTab tabs (tab_id t)) as [t'|] eqn:E.
    + split; [done|]. split; [|done]. intros t0 [= <-]. by eapply findTab_Some.
    + right. exists t. split; [done|]. by apply findTab_None.
  - split; [done|]. split; [|done]. intros t [=].
Qed.

Lemma toggle_sends_wellTargeted tabs all :
  (forall t, In t tabs -> In t all) ->
  Forall (wellTargeted all)
    (flat_map (fun t => match tab_id t with
                        | Some id => [tabs_sendMessage id toggleVideoSelectCommand]
                        | None => []
                        end) tabs).
Proof.
  induction tabs as [|t tabs IH]; intros Hsub; [constructor|].
  cbn [flat_map]. apply Forall_app. split.
  - destruct (tab_id t) as [id|] eqn:E; [|constructor].
    constructor; [|constructor]. split; [|done].
    exists t. split; [|done]. apply Hsub. by left.
  - apply IH. intros t' Hin. apply Hsub. by right.
Qed.

(** The shortcut listener throws exactly for a command that is not one of
    its seven shortcuts, and then with the message [Unknown command ...];
    the error of [postMineActionFromCommand] is never raised by it. *)
Theorem onCommand_throws_iff_unknown tabs command e :
  onCommand tabs command = Threw e <->
  ~ In command shortcuts /\ e = String.append "Unknown command " command.
Proof.
  unfold onCommand, shortcuts.
  destruct (String.eqb_spec command "copy-subtitle") as [->|N1].
  { cbn. split; [done|]. intros [H _]. exfalso. apply H. tauto. }
  destruct (String.eqb_spec command "update-last-card") as [->|N2].
  { cbn. split; [done|]. intros [H _]. exfalso. apply H. tauto. }
  destruct (String.eqb_spec command "export-card") as [->|N3].
  { cbn. split; [done|]. intros [H _]. exfalso. apply H. tauto. }
  destruct (String.eqb_spec command "copy-subtitle-with-dialog") as [->|N4].
  { cbn. split; [done|]. intros [H _]. exfalso. apply H. tauto. }
  cbn [orb].
  destruct (String.eqb_spec command "toggle-video-select") as [->|N5].
  { split; [done|]. intros [H _]. exfalso. apply H. cbn. tauto. }
  destruct (String.eqb_spec command "take-screenshot") as [->|N6].
  { split; [done|]. intros [H _]. exfalso. apply H. cbn. tauto. }
  destruct (String.eqb_spec command "toggle-recording") as [->|N7].
  { split; [done|]. intros [H _]. exfalso. apply H. cbn. tauto. }
  split.
  - intros [= <-]. split; [|done]. cbn. intros H.
    repeat (destruct H as [H|H]; [congruence|]). done.
  - by intros [_ ->].
Qed.

(** Whatever a shortcut makes the listener ask for is addressed to the
    active tabs only: a factory gives a command for a video element exactly
    when its tab is an active tab, and for an asbplayer exactly when it is
    no side panel and has no tab or an active one; the command names the
    element or asbplayer it was built for; direct messages go to active
    tabs. *)
Theorem onCommand_addresses_active_tabs tabs command effs :
  onCommand tabs command = Ok effs ->
  Forall (wellTargeted tabs) effs.
Proof.
  unfold onCommand.
  destruct (_ || _).
  - destruct (postMineActionFromCommand command); [|done].
    intros [= <-]. repeat constructor;
      [apply toVideoElement_wellTargeted|apply toAsbplayer_wellTargeted].
  - destruct (String.eqb command "toggle-video-select").
    { intros [= <-]. by apply toggle_sends_wellTargeted. }
    destruct (String.eqb command "take-screenshot").
    { intros [= <-]. repeat constructor;
        [apply toVideoElement_wellTargeted|apply toAsbplayer_wellTargeted]. }
    destruct (String.eqb command "toggle-recording"); [|done].
    intros [= <-]. repeat constructor;
      [apply toVideoElement_wellTargeted|apply toAsbplayer_wellTargeted].
Qed.

Lemma onCommand_addresses_active_tabs_witness :
  Forall (wellTargeted [ {| tab_id := Some 7%Z; tab_url := None |};
                         {| tab_id := None; tab_url := None |} ])
    [ tabs_sendMessage 7 toggleVideoSelectCommand ].
Proof.
  apply (onCommand_addresses_active_tabs
           [ {| tab_id := Some 7%Z; tab_url := None |};
             {| tab_id := None; tab_url := None |} ]
           "toggle-video-select").
  reflexivity.
Defined.

Lemma findTab_active tabs id : activeTab tabs id -> exists t, findTab tabs id = Some t.
Proof.
  intros Hact. destruct (findTab tabs id) as [t|] eqn:E; [by exists t|].
  by destruct (findTab_None tabs id E).
Qed.

Lemma publishes_pair tabs msg :
  publishes tabs msg
    (Ok [ publishCommandToVideoElements (toVideoElement tabs msg);
          publishCommandToAsbplayers (toAsbplayer tabs msg) ]).
Proof.
  exists (toVideoElement tabs msg), (toAsbplayer tabs msg). split; [done|]. split.
  - intros v Hact. unfold toVideoElement.
    by destruct (findTab_active _ _ Hact) as [t ->].
  - intros a Hside Htab. unfold toAsbplayer, validAsbplayer. rewrite Hside.
    destruct (asbplayer_tab a) as [t|]; [|done].
    by destruct (findTab_active _ _ (Htab t eq_refl)) as [t' ->].
Qed.

(** Each of the four mining shortcuts publishes the command
    [copy-subtitle], with the [postMineAction] that
    [postMineActionFromCommand] gives for the shortcut: none for
    [copy-subtitle], the Anki dialog for [copy-subtitle-with-dialog], the
    update of the last card for [update-last-card], the export for
    [export-card]. [take-screenshot] and [toggle-recording] publish a
    command of their own name without a [postMineAction]. Publishing is
    one request to the video elements and one to the asbplayers, which
    reach every video element of an active tab and every asbplayer that is
    no side panel and has no tab or an active one. *)
Theorem onCommand_message tabs command :
  (forall action,
     postMineActionFromCommand command = Ok action ->
     publishes tabs {| out_command := "copy-subtitle"; postMineAction := Some action |}
       (onCommand tabs command))
  /\ (command = "take-screenshot" \/ command = "toggle-recording" ->
      publishes tabs {| out_command := command; postMineAction := None |}
        (onCommand tabs command))
  /\ postMineActionFromCommand "copy-subtitle" = Ok none
  /\ postMineActionFromCommand "copy-subtitle-with-dialog" = Ok showAnkiDialog
  /\ postMineActionFromCommand "update-last-card" = Ok updateLastCard
  /\ postMineActionFromCommand "export-card" = Ok exportCard.
Proof.
  split; [|split; [|by repeat split]].
  - intros action. unfold onCommand, postMineActionFromCommand.
    destruct (String.eqb_spec command "copy-subtitle") as [->|N1].
    { cbn. intros [= <-]. apply publishes_pair. }
    destruct (String.eqb_spec command "copy-subtitle-with-dialog") as [->|N2].
    { cbn. intros [= <-]. apply publishes_pair. }
    destruct (String.eqb_spec command "update-last-card") as [->|N3].
    { cbn. intros [= <-]. apply publishes_pair. }
    destruct (String.eqb_spec command "export-card") as [->|N4]; [|done].
    cbn. intros [= <-]. apply publishes_pair.
  - intros [->| ->]; cbn; apply publishes_pair.
Qed.

(** The export shortcut, with one active tab. *)
Lemma onCommand_message_witness :
  publishes [ {| tab_id := Some 7%Z; tab_url := None |} ]
    {| out_command := "copy-subtitle"; postMineAction := Some exportCard |}
    (onCommand [ {| tab_id := Some 7%Z; tab_url := None |} ] "export-card").
Proof.
  apply (proj1 (onCommand_message [ {| tab_id := Some 7%Z; tab_url := None |} ]
                  "export-card")).
  reflexivity.
Defined.

(** ** Context menus *)

Lemma loadSubtitlesFactory_spec info t :
  (loadSubtitlesFactory info t = Some toggleVideoSelectCommand <->
   pageUrl info = tab_url t)
  /\ (loadSubtitlesFactory info t = None <-> pageUrl info <> tab_url t).
Proof.
  unfold loadSubtitlesFactory.
  pose proof (differs_eq (pageUrl info) (tab_url t)) as Hd.
  destruct (differs (pageUrl info) (tab_url t)).
  - split; split; try done.
    + intros H. apply Hd in H. done.
    + intros _ H. apply Hd in H. done.
  - split; split; try done.
    + intros _. by apply Hd.
    + intros H. exfalso. apply H. by apply Hd.
Qed.

Lemma mineSubtitleFactory_spec info v :
  let clicked :=
    match srcUrl info with
    | Some u => src v = u
    | None => pageUrl info = tab_url (tab v)
    end in
  (mineSubtitleFactory info v =
     Some {| video_sender := "asbplayer-extension-to-video";
             video_message := {| out_command := "copy-subtitle";
                                 postMineAction := Some showAnkiDialog |};
             video_src := Some (src v) |} <-> clicked)
  /\ (mineSubtitleFactory info v = None <-> ~ clicked).
Proof.
  unfold mineSubtitleFactory. cbn zeta.
  destruct (srcUrl info) as [u|].
  - destruct (String.eqb_spec (src v) u) as [->|Hne]; cbn; split; split; done.
  - pose proof (differs_eq (pageUrl info) (tab_url (tab v))) as Hd.
    destruct (differs (pageUrl info) (tab_url (tab v))).
    + split; split; try done.
      * intros H. apply Hd in H. done.
      * intros _ H. apply Hd in H. done.
    + split; split; try done.
      * intros _. by apply Hd.
      * intros H. exfalso. apply H. by apply Hd.
Qed.

(** A click on the [load-subtitles] item publishes one request to the
    tabs, which gives the command [toggle-video-select] to exactly the
    tabs whose URL is the URL of the page clicked on. A click on the
    [mine-subtitle] item publishes one request to the video elements,
    which gives [copy-subtitle] with the Anki dialog, for the source of
    the element, to exactly the video elements whose source is the source
    clicked on or, when the click has no source, whose tab shows the page
    clicked on. A click on any other item publishes nothing. *)
Theorem onClicked_addresses_clicked_page info :
  (menuItemId info = "load-subtitles" ->
   exists f,
     onClicked info = [publishCommandToVideoElementTabs f]
     /\ forall t,
          (f t = Some toggleVideoSelectCommand <-> pageUrl info = tab_url t)
          /\ (f t = None <-> pageUrl info <> tab_url t))
  /\ (menuItemId info = "mine-subtitle" ->
      exists f,
        onClicked info = [publishCommandToVideoElements f]
        /\ forall v,
             let clicked :=
               match srcUrl info with
               | Some u => src v = u
               | None => pageUrl info = tab_url (tab v)
               end in
             (f v = Some {| video_sender := "asbplayer-extension-to-video";
                            video_message :=
                              {| out_command := "copy-subtitle";
                                 postMineAction := Some showAnkiDialog |};
                            video_src := Some (src v) |} <-> clicked)
             /\ (f v = None <-> ~ clicked))
  /\ (menuItemId info <> "load-subtitles" ->
      menuItemId info <> "mine-subtitle" ->
      onClicked info = []).
Proof.
  unfold onClicked. split; [|split].
  - intros ->. cbn. eexists. split; [done|]. apply loadSubtitlesFactory_spec.
  - intros ->. cbn. eexists. split; [done|]. apply mineSubtitleFactory_spec.
  - intros N1 N2.
    destruct (String.eqb_spec (menuItemId info) "load-subtitles"); [done|].
    by destruct (String.eqb_spec (menuItemId info) "mine-subtitle").
Qed.

(** ** Setting up the context menus *)

Lemma orDefault_nonempty s d : d <> EmptyString -> orDefault s d <> EmptyString.
Proof. by destruct s. Qed.

(** Setting up the context menus passes nothing to [create] before the
    old items are removed, and passes the item [load-subtitles] and then
    the item [mine-subtitle] and no other, both when no platform call
    throws. The console gets the error that ended the setup, if any, and
    after it the [lastError] of each item passed to [create]: nothing is
    logged exactly when both items were passed and neither callback found
    an error. Every item passed has a title that is not empty, also when
    the localisation has none, and is an item on which the click listener
    acts; the click listener acts on no other item. *)
Theorem setupContextMenus_items api firefox getMessage removeAllThrows createThrows
    createLastError :
  let r := setupContextMenus api firefox getMessage removeAllThrows createThrows
             createLastError in
  (removed r = false -> created r = [])
  /\ (exists n, map menu_id (created r) = take n ["load-subtitles"; "mine-subtitle"])
  /\ (api = true -> removeAllThrows = None ->
      createThrows "load-subtitles" = None -> createThrows "mine-subtitle" = None ->
      map menu_id (created r) = ["load-subtitles"; "mine-subtitle"]
      /\ logged_errors r = callbackErrors createLastError (created r))
  /\ (logged_errors r = [] <->
      map menu_id (created r) = ["load-subtitles"; "mine-subtitle"]
      /\ createLastError "load-subtitles" = None
      /\ createLastError "mine-subtitle" = None)
  /\ (forall item e,
        In item (created r) -> createLastError (menu_id item) = Some e ->
        In e (logged_errors r))
  /\ Forall (fun item =>
               menu_title item <> EmptyString
               /\ forall page source,
                    onClicked {| menuItemId := menu_id item;
                                 pageUrl := page; srcUrl := source |} <> [])
       (created r)
  /\ forall info,
       onClicked info <> [] ->
       In (menuItemId info) ["load-subtitles"; "mine-subtitle"].
Proof.
  intros r. subst r. unfold setupContextMenus.
  assert (Hload : menu_title (loadSubtitlesItem firefox getMessage) <> EmptyString
                  /\ forall page source,
                       onClicked {| menuItemId :=
                                      menu_id (loadSubtitlesItem firefox getMessage);
                                    pageUrl := page; srcUrl := source |} <> []).
  { split; [by apply orDefault_nonempty|done]. }
  assert (Hmine : menu_title (mineSubtitleItem firefox getMessage) <> EmptyString
                  /\ forall page source,
                       onClicked {| menuItemId :=
                                      menu_id (mineSubtitleItem firefox getMessage);
                                    pageUrl := page; srcUrl := source |} <> []).
  { split; [by apply orDefault_nonempty|done]. }
  assert (Hclick : forall info, onClicked info <> [] ->
                     In (menuItemId info) ["load-subtitles"; "mine-subtitle"]).
  { intros info. unfold onClicked.
    destruct (String.eqb_spec (menuItemId info) "load-subtitles") as [->|_];
      [intros _; by left|].
    destruct (String.eqb_spec (menuItemId info) "mine-subtitle") as [->|_];
      [intros _; right; by left|done]. }
  assert (Hnil : Forall (fun item : MenuItem =>
                    menu_title item <> EmptyString
                    /\ forall page source,
                         onClicked {| menuItemId := menu_id item;
                                      pageUrl := page; srcUrl := source |} <> [])
                  []) by constructor.
  destruct api; cbn [negb].
  - destruct removeAllThrows as [e|].
    + split; [done|]. split; [by exists 0|]. split; [intros; congruence|].
      split; [split; [done|by intros [? _]]|]. split; [by intros ? ? []|].
      split; [exact Hnil|exact Hclick].
    + destruct (createThrows "load-subtitles") as [e1|].
      * split; [done|]. split; [by exists 0|]. split; [intros; congruence|].
        split; [split; [done|by intros [? _]]|]. split; [by intros ? ? []|].
        split; [exact Hnil|exact Hclick].
      * destruct (createThrows "mine-subtitle") as [e2|].
        -- split; [done|]. split; [by exists 1|]. split; [intros; congruence|].
           split; [split; [done|by intros [? _]]|].
           split.
           { intros item e [<-|[]] He. cbn in *. rewrite He. right. by left. }
           split; [|exact Hclick].
           constructor; [exact Hload|constructor].
        -- split; [done|]. split; [by exists 2|]. split; [done|].
           cbn [created logged_errors callbackErrors flat_map menu_id
                loadSubtitlesItem mineSubtitleItem map].
           split.
           { destruct (createLastError "load-subtitles"),
               (createLastError "mine-subtitle"); cbn;
               split; try done; by intros (_ & ? & ?). }
           split.
           { intros item e [<-|[<-|[]]] He; cbn in He; rewrite He; cbn.
             - by left.
             - destruct (createLastError "load-subtitles"); cbn; tauto. }
           split; [|exact Hclick].
           constructor; [exact Hload|]. constructor; [exact Hmine|constructor].
  - split; [done|]. split; [by exists 0|]. split; [intros; congruence|].
    split; [split; [done|by intros [? _]]|]. split; [by intros ? ? []|].
    split; [exact Hnil|exact Hclick].
Qed.

(** ** The toolbar button *)

(** On the Firefox build a click without host permission never opens the
    popup and never messages the tab: it requests the permission, reloads
    the extension exactly when the permission is obtained, and logs the
    error when the request fails. With host permission, clicks only run
    the default action, which messages the clicked tab on mobile and opens
    the popup elsewhere, and the permission is never requested again. *)
Theorem firefox_clicks_request_permission_first isMobile :
  (forall t request,
     let r := firefoxOnClicked isMobile false t request in
     Forall (fun eff => isDefaultEffect eff = false) r.2
     /\ In permissions_request r.2
     /\ (In runtime_reload r.2 <-> request = Ok true)
     /\ (r.1 = true <-> request = Ok true))
  /\ (forall clicks,
        firefoxClicks isMobile true clicks =
        (true, map (fun c => defaultAction isMobile c.1) clicks))
  /\ (forall t,
        Forall (fun eff => isDefaultEffect eff = true) (defaultAction isMobile t)
        /\ (forall id cmd,
              In (action_sendMessage id cmd) (defaultAction isMobile t) ->
              isMobile = true /\ tab_id t = Some id /\ cmd = toggleVideoSelectCommand)).
Proof.
  split; [|split].
  - intros t [[]|e]; cbn.
    + split; [by repeat constructor|]. split; [by left|].
      split; [by split; [|intros _; right; left]|done].
    + split; [by repeat constructor|]. split; [by left|].
      split; split; try done. by intros [|[]].
    + split; [by repeat constructor|]. split; [by left|].
      split; split; try done. by intros [|[|[]]].
  - induction clicks as [|[t request] clicks IH]; [done|].
    cbn. by rewrite IH.
  - intros t. unfold defaultAction. destruct isMobile.
    + destruct (tab_id t) as [id|].
      * split; [by repeat constructor|]. by intros id' cmd [[= <- <-]|[]].
      * split; [constructor|]. by intros id' cmd [].
    + split; [by repeat constructor|]. by intros id cmd [|[]].
Qed.

(** ** Response headers *)

(** The listener for response headers returns the headers it was given,
    each of them unchanged: the text it builds for a
    [content-security-policy] header stays in a local variable and is not
    written to the header. Without headers it returns nothing. *)
Theorem onHeadersReceived_leaves_headers toLowerCase runtime_id responseHeaders :
  onHeadersReceived toLowerCase runtime_id responseHeaders = responseHeaders
  /\ forall header,
       toLowerCase (name header) = "content-security-policy" ->
       (cspBody toLowerCase runtime_id header).1 = header
       /\ exists cspValue,
            (cspBody toLowerCase runtime_id header).2 = Some cspValue
            /\ value header <> Some cspValue.
Proof.
  split.
  - destruct responseHeaders as [headers|]; [|done]. simpl. f_equal.
    induction headers as [|h hs IH]; [done|].
    simpl. rewrite IH. f_equal. unfold cspBody.
    by destruct (String.eqb _ _).
  - intros header Hname. unfold cspBody. rewrite Hname. simpl.
    split; [done|]. eexists. split; [done|].
    destruct (value header) as [v|]; [|done].
    intros [= Hv]. revert Hv. clear.
    induction v as [|a v IH]; [done|]. simpl. intros [= Hv]. by apply IH.
Qed.


End BackgroundProofs.

(** * Properties of the native audio recorder *)

Module NativeAudioRecorderProofs.
Import NativeAudioRecorder.

(** ** One connection *)

Lemma deliver_timerFollowsPort c ev :
  timerFollowsPort c -> timerFollowsPort (deliver c ev).
Proof.
  unfold timerFollowsPort, deliver. destruct c as [p ta po]. simpl.
  intros ->. destruct ev as [t [response|lastError]]; simpl.
  all: destruct po, (HARD_TIMEOUT <=? t)%Z; done.
Qed.

Lemma fold_deliver_timerFollowsPort evs c :
  timerFollowsPort c -> timerFollowsPort (fold_left deliver evs c).
Proof.
  revert c. induction evs as [|ev evs IH]; intros c H; [done|].
  simpl. by apply IH, deliver_timerFollowsPort.
Qed.

(** A port that is closed, its timer cleared, ignores the rest of the
    script. *)
Lemma deliver_closed c ev :
  portOpen c = false -> timerArmed c = false -> deliver c ev = c.
Proof. unfold deliver. intros Hp Ht. rewrite Ht. simpl. by rewrite Hp. Qed.

Lemma fold_deliver_closed evs c :
  portOpen c = false -> timerArmed c = false -> fold_left deliver evs c = c.
Proof.
  intros Hp Ht. induction evs as [|ev evs IH]; [done|].
  simpl. by rewrite deliver_closed.
Qed.

Lemma runPort_closed evs c :
  portOpen c = false -> timerArmed c = false -> runPort c evs = c.
Proof.
  intros Hp Ht. unfold runPort. rewrite fold_deliver_closed by done.
  by rewrite Ht.
Qed.

Lemma runPort_app pre post c :
  runPort c (pre ++ post) = runPort (fold_left deliver pre c) post.
Proof. unfold runPort. by rewrite fold_left_app. Qed.

Lemma explained_resolve w t response p :
  In (t, OnMessage response) (events w) ->
  explained w p -> explained w (resolve t response p).
Proof. by destruct p. Qed.

Lemma explained_reject_timeout w p :
  explained w p -> explained w (reject HARD_TIMEOUT "Native host response timeout" p).
Proof. destruct p; simpl; auto. Qed.

Lemma explained_reject_error w t m p :
  In (t, OnDisconnect (Some m)) (events w) ->
  explained w p ->
  explained w (reject t (String.append "Native host error: " m) p).
Proof. destruct p; simpl; eauto. Qed.

Lemma deliver_explained w c ev :
  In ev (events w) -> explained w (promise c) -> explained w (promise (deliver c ev)).
Proof.
  intros Hin Hc. unfold deliver. destruct ev as [t [response|[m|]]]; simpl.
  all: destruct (timerArmed c && (HARD_TIMEOUT <=? t)%Z); simpl;
    try destruct (portOpen c); simpl;
    auto using explained_resolve, explained_reject_timeout, explained_reject_error.
Qed.

Lemma fold_deliver_explained w evs c :
  (forall ev, In ev evs -> In ev (events w)) ->
  explained w (promise c) -> explained w (promise (fold_left deliver evs c)).
Proof.
  revert c. induction evs as [|ev evs IH]; intros c Hsub Hc; [done|].
  simpl. apply IH.
  - intros ev' Hin. apply Hsub. by right.
  - apply deliver_explained; [|done]. apply Hsub. by left.
Qed.

Lemma runPort_explained w :
  explained w (promise (runPort (connected w) (events w))).
Proof.
  unfold runPort.
  assert (H : explained w (promise (fold_left deliver (events w) (connected w)))).
  { apply fold_deliver_explained; [auto|].
    unfold connected, explained. simpl. destruct (postThrows w); auto. }
  destruct (timerArmed _); [|done]. by apply explained_reject_timeout.
Qed.

Lemma effectiveTimeout_le d : (effectiveTimeout d <= 30000)%Z.
Proof. unfold effectiveTimeout. lia. Qed.

Lemma timerFiresAt_effectiveTimeout d :
  (0 <= timerFiresAt (effectiveTimeout d) < HARD_TIMEOUT)%Z.
Proof. unfold timerFiresAt, effectiveTimeout, HARD_TIMEOUT. lia. Qed.

Lemma sendMessage_connectCalls msg w pf :
  connectCalls (sendMessage msg w pf).2 = connectCalls pf ++ [msg].
Proof. unfold sendMessage. by destruct (connectThrows w). Qed.

(** ** recordAudio *)

(** C3, as amended. [recordAudio] does not read [_isAvailable]: after
    [checkAvailability()] has answered false, [isAvailable] is false, and a
    record call still calls [connectNative] once; its result is that of the
    race between this connection and the timer. *)
Theorem recordAudio_ignores_availability this w pf t this' pf'
    durationMs encodeMp3 w2 :
  checkAvailability this w pf = (Fulfilled t false, this', pf') ->
  isAvailable this' = false
  /\ connectCalls (recordAudio this' durationMs encodeMp3 w2 pf').2 =
     connectCalls pf' ++ [Record_ durationMs encodeMp3]
  /\ (recordAudio this' durationMs encodeMp3 w2 pf').1 =
     race (sendMessage (Record_ durationMs encodeMp3) w2 pf').1
          (timerFiresAt (effectiveTimeout durationMs)).
Proof.
  intros Hcheck. split; [|split].
  - unfold checkAvailability in Hcheck. unfold isAvailable.
    destruct (_isAvailable this) as [b|] eqn:Ea.
    + inversion Hcheck; subst. by rewrite Ea.
    + destruct (ping w pf) as [[|t0 v|t0 e] pf0]; [done| |].
      * inversion Hcheck as [[Ht Hv Hthis Hpf]]. simpl. by rewrite Hv.
      * by inversion Hcheck.
  - unfold recordAudio.
    pose proof (sendMessage_connectCalls (Record_ durationMs encodeMp3) w2 pf') as H.
    by destruct (sendMessage _ w2 pf').
  - unfold recordAudio. by destruct (sendMessage _ w2 pf').
Qed.

Lemma recordAudio_ignores_availability_witness :
  isAvailable (checkAvailability newRecorder hostWithoutAudio noCalls).1.2 = false
  /\ connectCalls
       (recordAudio (checkAvailability newRecorder hostWithoutAudio noCalls).1.2
          5000 false (hostRecords 5200) {| connectCalls := [Ping] |}).2 =
     [Ping; Record_ 5000 false]
  /\ (recordAudio (checkAvailability newRecorder hostWithoutAudio noCalls).1.2
        5000 false (hostRecords 5200) {| connectCalls := [Ping] |}).1 =
     Fulfilled 5200%Z recording.
Proof.
  apply (recordAudio_ignores_availability newRecorder hostWithoutAudio noCalls
           40 _ {| connectCalls := [Ping] |} 5000 false (hostRecords 5200)).
  reflexivity.
Defined.

(** After a probe that answered false, a record call connects to the host,
    and here it even returns a recording. *)
Lemma record_after_failed_probe_connects :
  (checkAvailability newRecorder hostWithoutAudio noCalls).1.1 = Fulfilled 40%Z false
  /\ ~ shortCircuits (checkAvailability newRecorder hostWithoutAudio noCalls).1.2
         5000 false (hostRecords 5200)
         (checkAvailability newRecorder hostWithoutAudio noCalls).2.
Proof.
  split; [reflexivity|]. intros [Hcalls _]. vm_compute in Hcalls. discriminate.
Qed.

(** When [connectNative] throws, the promise of [recordAudio] is rejected. *)
Lemma recordAudio_rejects_on_connect_failure :
  ~ neverRejects newRecorder 5000 false connectFails noCalls.
Proof. unfold neverRejects. vm_compute. discriminate. Qed.

(** ** checkAvailability *)

Lemma checkAvailability_caches this w pf t b this' pf' :
  checkAvailability this w pf = (Fulfilled t b, this', pf') ->
  _isAvailable this' = Some b.
Proof.
  unfold checkAvailability. destruct (_isAvailable this) as [b0|] eqn:Ea.
  - intros H. inversion H; subst. done.
  - destruct (ping w pf) as [[|t0 v|t0 e] pf0]; intros H; inversion H; done.
Qed.

Lemma checkAvailability_cached_call this b w pf :
  _isAvailable this = Some b ->
  checkAvailability this w pf = (Fulfilled 0 b, this, pf).
Proof. unfold checkAvailability. by intros ->. Qed.

Lemma checkRepeatedly_cached ws this b pf :
  _isAvailable this = Some b ->
  checkRepeatedly ws this pf = (map (fun _ => Fulfilled 0%Z b) ws, this, pf).
Proof.
  intros Ha. induction ws as [|w ws IH]; [done|].
  simpl. by rewrite (checkAvailability_cached_call this b w pf Ha), IH.
Qed.

(** ** Calls of checkAvailability that overlap *)

(** A call during which nothing else runs on the instance is a start
    followed by the settling of its ping. *)
Lemma checkAvailability_start_settle call this w pf :
  checkRun [CallStarts call w; PingSettles call]
    {| instance := this; awaiting := []; platform := pf; answered := [] |} =
  {| instance := (checkAvailability this w pf).1.2;
     awaiting := match _isAvailable this, (checkAvailability this w pf).1.1 with
                 | None, Pending => [(call, Pending)]
                 | _, _ => []
                 end;
     platform := (checkAvailability this w pf).2;
     answered := match (checkAvailability this w pf).1.1 with
                 | Fulfilled _ b => [(call, b)]
                 | _ => []
                 end |}.
Proof.
  unfold checkRun, checkAvailability. destruct this as [pt [b|]].
  - reflexivity.
  - cbn. rewrite Nat.eqb_refl.
    destruct (ping w pf) as [[|t v|t e] pf']; cbn; by rewrite ?Nat.eqb_refl.
Qed.








(** ** The 60-second timer *)

Lemma deliver_boundedOrCleared w c ev :
  In ev (events w) -> boundedOrCleared w c -> boundedOrCleared w (deliver c ev).
Proof.
  unfold boundedOrCleared, deliver. destruct c as [p ta po]. simpl.
  intros Hin [-> Hp]. destruct ev as [t [response|[m|]]]; simpl.
  all: destruct po; simpl; [|done].
  all: destruct (HARD_TIMEOUT <=? t)%Z eqn:E; simpl;
    [apply Z.leb_le in E | apply Z.leb_gt in E].
  all: split; [done|].
  all: destruct p as [|t0 v0|t0 e0]; simpl; try done; try lia.
  all: try (unfold HARD_TIMEOUT; lia).
  right. exists t. done.
Qed.

(** A call that settles has settled by the 60-second mark, and a call that
    never settles has seen, before that mark, a disconnection for which
    the platform reported no error. *)
Lemma sendMessage_bounded_unless_cleared msg w pf :
  match (sendMessage msg w pf).1 with
  | Pending =>
      exists t, (t < HARD_TIMEOUT)%Z /\ In (t, OnDisconnect None) (events w)
  | Fulfilled t _ | Rejected t _ => (t <= HARD_TIMEOUT)%Z
  end.
Proof.
  unfold sendMessage. destruct (connectThrows w); simpl; [done|].
  assert (H : boundedOrCleared w (fold_left deliver (events w) (connected w))).
  { assert (Hgen : forall evs c, (forall ev, In ev evs -> In ev (events w)) ->
                     boundedOrCleared w c ->
                     boundedOrCleared w (fold_left deliver evs c)).
    { induction evs as [|ev evs IH]; intros c Hsub Hc; [done|].
      simpl. apply IH; [intros ev' Hin; apply Hsub; by right|].
      apply deliver_boundedOrCleared; [apply Hsub; by left|done]. }
    apply Hgen; [auto|]. unfold boundedOrCleared, connected. simpl.
    split; [done|]. destruct (postThrows w); [done|by left]. }
  unfold runPort. destruct H as [Harm Hp].
  destruct (fold_left deliver (events w) (connected w)) as [p ta po].
  simpl in *. subst ta. destruct po; simpl.
  - destruct p; simpl; [done|done|done].
  - destruct p as [|t0 v0|t0 e0]; [|done|done].
    by destruct Hp as [?|?].
Qed.

(** C7, at the failing input: the host exits after one second without an
    answer and without a platform error. The disconnect listener clears
    the 60-second timer and settles nothing, so the ping, and with it
    [checkAvailability()], stays pending for ever. *)
Theorem ping_pending_after_clean_exit :
  (ping cleanExit noCalls).1 = Pending
  /\ ~ settledWithinHardTimeout (ping cleanExit noCalls).1
  /\ (checkAvailability newRecorder cleanExit noCalls).1.1 = Pending.
Proof. split; [reflexivity|]. split; [|reflexivity]. intros H. exact H. Qed.

(** ** Disconnection without a platform error *)

(** C8, at the failing input: the host exits after one second without a
    reply and the platform reports no error. The disconnection reaches the
    [onDisconnect] listener, which clears the 60-second timer and, in its
    branch for a missing [lastError], only logs: the call is left pending
    for ever and is never turned into a failure, although no reply had
    been delivered. With a platform error the same disconnection does
    fail the call. *)
Theorem clean_exit_before_reply_is_no_failure :
  deliver (connected cleanExit) (1000%Z, OnDisconnect None) =
    onDisconnectListener 1000 None (connected cleanExit)
  /\ runPort (connected cleanExit) (events cleanExit) =
     {| promise := Pending; timerArmed := false; portOpen := false |}
  /\ ~ isFailure (ping cleanExit noCalls).1
  /\ (checkAvailability newRecorder cleanExit noCalls).1.1 = Pending
  /\ isFailure (ping hostMissing noCalls).1.
Proof.
  split; [reflexivity|]. split; [reflexivity|].
  split; [intros H; exact H|]. split; [reflexivity|exact I].
Qed.

(** ** The singleton *)

Lemma checkAvailabilityAt_variable r w m pf :
  nativeAudioRecorder (checkAvailabilityAt r w m pf).1.2 = nativeAudioRecorder m
  /\ length (heap (checkAvailabilityAt r w m pf).1.2) = length (heap m).
Proof.
  unfold checkAvailabilityAt. destruct (heap m !! r) as [this|]; [|done].
  destruct (checkAvailability this w pf) as [[p this'] pf']. simpl.
  by rewrite length_insert.
Qed.

Lemma step_variable s op r :
  nativeAudioRecorder s.1.1 = Some r ->
  nativeAudioRecorder (step s op).1.1 = Some r
  /\ length (heap s.1.1) <= length (heap (step s op).1.1)
  /\ (step s op).2 = s.2 ++ match op with OpGet => [r] | _ => [] end.
Proof.
  destruct s as [[m pf] got]. simpl. intros Hvar.
  destruct op as [| |r' w|r' d e w]; simpl.
  - unfold getNativeAudioRecorder. rewrite Hvar. simpl. done.
  - simpl. rewrite length_app, app_nil_r. split; [done|]. split; [lia|done].
  - pose proof (checkAvailabilityAt_variable r' w m pf) as [Hv Hl].
    destruct (checkAvailabilityAt r' w m pf) as [[p m'] pf']. simpl in *.
    rewrite Hv, Hl, app_nil_r. done.
  - rewrite app_nil_r.
    destruct (heap m !! r') as [this|]; [|done].
    by destruct (recordAudio this d e w pf).
Qed.

Lemma step_handedOut s op : handedOut s -> handedOut (step s op).
Proof.
  intros [Hwf Hgot]. destruct (nativeAudioRecorder s.1.1) as [r0|] eqn:Hvar.
  - destruct (step_variable s op r0 Hvar) as (Hv & Hlen & Hg).
    specialize (Hwf r0 eq_refl). split.
    + intros r. rewrite Hv. intros [= <-]. lia.
    + intros r. rewrite Hg, Hv, in_app_iff. intros [Hin|Hin].
      * by rewrite <- (Hgot r Hin).
      * destruct op; try by destruct Hin.
        by destruct Hin as [<-|[]].
  - assert (Hnone : s.2 = []).
    { destruct s.2 as [|g got] eqn:E; [done|].
      specialize (Hgot g (or_introl eq_refl)). congruence. }
    destruct s as [[m pf] got]. simpl in *. subst got.
    destruct op as [| |r' w|r' d e w]; simpl.
    + unfold getNativeAudioRecorder. rewrite Hvar. simpl. split.
      * intros r [= <-]. cbn. rewrite length_app. simpl. lia.
      * by intros r [<-|[]].
    + split; [|intros r []]. cbn. by rewrite Hvar.
    + pose proof (checkAvailabilityAt_variable r' w m pf) as [Hv Hl].
      destruct (checkAvailabilityAt r' w m pf) as [[p m'] pf']. simpl in *.
      split; [|intros r []]. cbn. by rewrite Hv, Hvar.
    + destruct (heap m !! r') as [this|].
      * destruct (recordAudio this d e w pf). split; [|intros r []].
        cbn. by rewrite Hvar.
      * split; [|intros r []]. cbn. by rewrite Hvar.
Qed.

Lemma run_handedOut ops s : handedOut s -> handedOut (run ops s).
Proof.
  revert s. induction ops as [|op ops IH]; intros s Hs; [done|].
  simpl. by apply IH, step_handedOut.
Qed.

Lemma handedOut_initial pf : handedOut (initial, pf, []).
Proof. split; [done|intros r []]. Qed.

(** A cached answer stays where it is, whatever is done with the module. *)
Lemma checkAvailabilityAt_cached r b w m pf :
  cachedAt r b m ->
  checkAvailabilityAt r w m pf = (Fulfilled 0 b, m, pf).
Proof.
  intros (this & Hl & Ha). unfold checkAvailabilityAt. rewrite Hl.
  rewrite (checkAvailability_cached_call this b w pf Ha).
  rewrite list_insert_id by done. by destruct m.
Qed.

Lemma step_cachedAt r b s op : cachedAt r b s.1.1 -> cachedAt r b (step s op).1.1.
Proof.
  destruct s as [[m pf] got]. simpl. intros Hc.
  pose proof Hc as (this & Hl & Ha).
  destruct op as [| |r' w|r' d e w]; simpl.
  - unfold getNativeAudioRecorder.
    destruct (nativeAudioRecorder m); simpl; [done|].
    exists this. split; [|done]. simpl. apply lookup_app_l_Some. done.
  - exists this. split; [|done]. simpl. apply lookup_app_l_Some. done.
  - destruct (decide (r' = r)) as [->|Hne].
    + by rewrite (checkAvailabilityAt_cached r b w m pf Hc).
    + unfold checkAvailabilityAt. destruct (heap m !! r') as [that|]; [|done].
      destruct (checkAvailability that w pf) as [[p that'] pf']. simpl.
      exists this. split; [|done]. simpl. by rewrite list_lookup_insert_ne.
  - destruct (heap m !! r') as [that|]; [|done].
    by destruct (recordAudio that d e w pf).
Qed.

Lemma run_cachedAt r b ops s : cachedAt r b s.1.1 -> cachedAt r b (run ops s).1.1.
Proof.
  revert s. induction ops as [|op ops IH]; intros s Hs; [done|].
  simpl. by apply IH, step_cachedAt.
Qed.

Lemma run_variable ops s r :
  nativeAudioRecorder s.1.1 = Some r ->
  nativeAudioRecorder (run ops s).1.1 = Some r.
Proof.
  revert s. induction ops as [|op ops IH]; intros s Hs; [done|].
  simpl. apply IH. by apply step_variable.
Qed.

Lemma checkAvailabilityAt_caches r w m pf t b m' pf' :
  checkAvailabilityAt r w m pf = (Fulfilled t b, m', pf') ->
  cachedAt r b m' /\ nativeAudioRecorder m' = nativeAudioRecorder m.
Proof.
  unfold checkAvailabilityAt. destruct (heap m !! r) as [this|] eqn:Hl; [|done].
  destruct (checkAvailability this w pf) as [[p this'] pf0] eqn:Hc.
  intros H. inversion H; subst. split; [|done].
  exists this'. split.
  - simpl. apply list_lookup_insert_eq. by eapply lookup_lt_Some.
  - by eapply checkAvailability_caches.
Qed.

Lemma isAvailableAt_cached r b m : cachedAt r b m -> isAvailableAt r m = b.
Proof.
  intros (this & Hl & Ha). unfold isAvailableAt, isAvailable.
  rewrite Hl, Ha. by destruct b.
Qed.

(** C9. [getNativeAudioRecorder()] always returns the same instance: in
    every run of the module from its initial state all the references it
    has returned are equal, and they are the instance in the module
    variable. The cached availability is therefore shared: once
    [checkAvailability()] has completed with [b] through such a reference,
    then after anything else that is done with the module, a later
    [getNativeAudioRecorder()] returns that reference again, its
    [isAvailable] is [b], and its [checkAvailability()] answers [b] with no
    connection. *)
Theorem getNativeAudioRecorder_singleton ops pf0 :
  let s := run ops (initial, pf0, []) in
  (forall r1 r2, In r1 s.2 -> In r2 s.2 -> r1 = r2)
  /\ (forall r, In r s.2 ->
        nativeAudioRecorder s.1.1 = Some r /\ is_Some (heap s.1.1 !! r))
  /\ (forall r w t b m' pf',
        In r s.2 ->
        checkAvailabilityAt r w s.1.1 s.1.2 = (Fulfilled t b, m', pf') ->
        forall ops2,
          let s2 := run ops2 (m', pf', []) in
          (getNativeAudioRecorder s2.1.1).1 = r
          /\ isAvailableAt r (getNativeAudioRecorder s2.1.1).2 = b
          /\ forall w2,
               checkAvailabilityAt r w2 (getNativeAudioRecorder s2.1.1).2 s2.1.2 =
               (Fulfilled 0 b, (getNativeAudioRecorder s2.1.1).2, s2.1.2)).
Proof.
  intros s.
  assert (Hs : handedOut s) by apply run_handedOut, handedOut_initial.
  destruct Hs as [Hwf Hgot]. split; [|split].
  - intros r1 r2 H1 H2. apply Hgot in H1, H2. congruence.
  - intros r Hin. split; [by apply Hgot|].
    apply lookup_lt_is_Some. by apply Hwf, Hgot.
  - intros r w t b m' pf' Hin Hcheck ops2 s2.
    apply checkAvailabilityAt_caches in Hcheck as [Hc Hv].
    rewrite (Hgot r Hin) in Hv.
    assert (Hv2 : nativeAudioRecorder s2.1.1 = Some r) by by apply run_variable.
    assert (Hc2 : cachedAt r b s2.1.1) by by apply run_cachedAt.
    unfold getNativeAudioRecorder. rewrite Hv2. simpl.
    split; [done|]. split; [by apply isAvailableAt_cached|].
    intros w2. by apply checkAvailabilityAt_cached.
Qed.

(** Two callers, a probe by the first, an instance built aside, and the
    second caller finds the answer of the first. *)
Example singleton_shared :
  run [OpGet; OpCheck 0 hostWithoutAudio; OpNew; OpGet; OpCheck 0 (hostRecords 10)]
      (initial, noCalls, []) =
  ({| heap := [ {| port := None; _isAvailable := Some false |}; newRecorder ];
      nativeAudioRecorder := Some 0 |},
   {| connectCalls := [Ping] |},
   [0; 0]).
Proof. reflexivity. Qed.

(** ** Further properties of a connection *)

Lemma runPort_first c t ev rest :
  portOpen c = true -> timerArmed c = true -> (t < HARD_TIMEOUT)%Z ->
  runPort c ((t, ev) :: rest) =
  match ev with
  | OnMessage response => onMessageListener t response c
  | OnDisconnect lastError => onDisconnectListener t lastError c
  end.
Proof.
  intros Ho Ha Ht.
  assert (Hd : deliver c (t, ev) =
               match ev with
               | OnMessage response => onMessageListener t response c
               | OnDisconnect lastError => onDisconnectListener t lastError c
               end).
  { unfold deliver. rewrite Ha. cbn [fst snd].
    rewrite (proj2 (Z.leb_gt _ _) Ht). cbn [andb]. by rewrite Ho. }
  unfold runPort. cbn [fold_left]. rewrite Hd.
  destruct ev; by rewrite fold_deliver_closed.
Qed.

Lemma runPort_late c t ev rest :
  timerArmed c = true -> (HARD_TIMEOUT <= t)%Z ->
  runPort c ((t, ev) :: rest) = fireTimeout c.
Proof.
  intros Ha Ht.
  assert (Hd : deliver c (t, ev) = fireTimeout c).
  { unfold deliver. rewrite Ha. cbn [fst snd].
    by rewrite (proj2 (Z.leb_le _ _) Ht). }
  unfold runPort. cbn [fold_left]. rewrite Hd.
  by rewrite fold_deliver_closed.
Qed.

(** The first event on the port decides the call: a message fulfils it, a
    disconnection with a platform error rejects it, a disconnection
    without one leaves it pending; whatever the platform delivers
    afterwards is ignored. *)
Theorem sendMessage_first_event_decides msg w pf t ev rest :
  connectThrows w = None ->
  postThrows w = None ->
  events w = (t, ev) :: rest ->
  (t < HARD_TIMEOUT)%Z ->
  (sendMessage msg w pf).1 =
  match ev with
  | OnMessage response => Fulfilled t response
  | OnDisconnect (Some m) => Rejected t (String.append "Native host error: " m)
  | OnDisconnect None => Pending
  end.
Proof.
  intros Hc Hp Hev Ht. unfold sendMessage. rewrite Hc, Hev. cbn [fst].
  rewrite (runPort_first (connected w) t ev rest) by done.
  unfold connected. rewrite Hp. by destruct ev as [response|[m|]].
Qed.

Lemma sendMessage_first_event_decides_witness :
  (sendMessage (Record_ 5000 false) hostRepliesAndExits noCalls).1 =
  Fulfilled 40%Z recording.
Proof.
  apply (sendMessage_first_event_decides (Record_ 5000 false) hostRepliesAndExits
           noCalls 40 (OnMessage recording) [(45%Z, OnDisconnect None)]);
    reflexivity.
Defined.

(** A host from which nothing arrives before the 60-second mark: the call
    is rejected at that mark with the timeout error, and an availability
    check on a fresh instance then answers false and caches it. *)
Theorem sendMessage_times_out_when_silent msg w pf :
  connectThrows w = None ->
  postThrows w = None ->
  Forall (fun ev => (HARD_TIMEOUT <= ev.1)%Z) (events w) ->
  (sendMessage msg w pf).1 = Rejected HARD_TIMEOUT "Native host response timeout"
  /\ (checkAvailability newRecorder w pf).1 =
     (Fulfilled HARD_TIMEOUT false, {| port := None; _isAvailable := Some false |}).
Proof.
  intros Hc Hp Hall.
  assert (Hs : forall m, (sendMessage m w pf).1 =
                 Rejected HARD_TIMEOUT "Native host response timeout").
  { intros m. unfold sendMessage. rewrite Hc. cbn [fst].
    destruct (events w) as [|[t ev] rest].
    - unfold runPort, connected. by rewrite Hp.
    - inversion Hall as [|? ? Ht _]; subst. cbn [fst] in Ht.
      rewrite runPort_late by done. unfold connected. by rewrite Hp. }
  split; [apply Hs|].
  unfold checkAvailability, ping. simpl. specialize (Hs Ping).
  destruct (sendMessage Ping w pf) as [p pf']. simpl in Hs. by subst p.
Qed.

Lemma sendMessage_times_out_when_silent_witness :
  (sendMessage Ping (hostRecords 61000) noCalls).1 =
    Rejected 60000%Z "Native host response timeout"
  /\ (checkAvailability newRecorder (hostRecords 61000) noCalls).1 =
     (Fulfilled 60000%Z false, {| port := None; _isAvailable := Some false |}).
Proof.
  apply (sendMessage_times_out_when_silent Ping (hostRecords 61000) noCalls).
  - reflexivity.
  - reflexivity.
  - repeat constructor. vm_compute. discriminate.
Defined.

Lemma fold_deliver_settlesAfter T evs c :
  (T < HARD_TIMEOUT)%Z ->
  Forall (fun ev => (T < ev.1)%Z) evs ->
  settlesAfter T (promise c) ->
  settlesAfter T (promise (fold_left deliver evs c)).
Proof.
  intros HT Hall. revert c. induction Hall as [|[t ev] evs Ht _ IH]; intros c Hc; [done|].
  simpl. apply IH. unfold deliver. simpl in *.
  destruct (timerArmed c && (HARD_TIMEOUT <=? t)%Z); simpl.
  - destruct (promise c); done.
  - destruct (portOpen c); [|done].
    destruct ev as [response|[m|]]; simpl; destruct (promise c); done.
Qed.

Lemma sendMessage_quiet T msg w pf :
  (T < HARD_TIMEOUT)%Z -> quietUntil T w ->
  settlesAfter T (sendMessage msg w pf).1.
Proof.
  intros HT (Hc & Hp & Hall). unfold sendMessage. rewrite Hc. simpl.
  unfold runPort.
  assert (H : settlesAfter T (promise (fold_left deliver (events w) (connected w)))).
  { apply fold_deliver_settlesAfter; [done|done|]. unfold connected. by rewrite Hp. }
  destruct (timerArmed _); [|done]. simpl.
  destruct (promise _); done.
Qed.

(** ** Further properties of recordAudio *)

(** A record call always settles, and no later than its race timer, hence
    within 30 seconds, whatever the platform and the host do. *)
Theorem recordAudio_settles_in_time this durationMs encodeMp3 w pf :
  match (recordAudio this durationMs encodeMp3 w pf).1 with
  | Pending => False
  | Fulfilled t _ | Rejected t _ =>
      (t <= timerFiresAt (effectiveTimeout durationMs))%Z
      /\ (timerFiresAt (effectiveTimeout durationMs) <= 30000)%Z
  end.
Proof.
  pose proof (effectiveTimeout_le durationMs) as Hle.
  assert (HT : (timerFiresAt (effectiveTimeout durationMs) <= 30000)%Z).
  { unfold timerFiresAt. lia. }
  unfold recordAudio.
  destruct (sendMessage (Record_ durationMs encodeMp3) w pf) as [[|t v|t e] pf'];
    simpl; [lia| |].
  all: destruct (t <=? _)%Z eqn:E; [apply Z.leb_le in E|]; lia.
Qed.

(** A record call answers [success: true] only with a response that the
    host has sent on this call's port, no later than the race timer. *)
Theorem recordAudio_success_from_host this durationMs encodeMp3 w pf t response :
  (recordAudio this durationMs encodeMp3 w pf).1 = Fulfilled t response ->
  success response = true ->
  connectThrows w = None
  /\ In (t, OnMessage response) (events w)
  /\ (t <= timerFiresAt (effectiveTimeout durationMs))%Z.
Proof.
  unfold recordAudio, sendMessage.
  destruct (connectThrows w) as [err|] eqn:Hc; simpl.
  - destruct (0 <=? _)%Z; [done|]. intros [= _ <-]. done.
  - pose proof (runPort_explained w) as Hex.
    destruct (promise (runPort (connected w) (events w))) as [|t0 v|t0 e]; simpl.
    + intros [= _ <-]. done.
    + destruct (t0 <=? _)%Z eqn:E.
      * intros [= <- <-] _. apply Z.leb_le in E. done.
      * intros [= _ <-]. done.
    + destruct (t0 <=? _)%Z; [done|]. intros [= _ <-]. done.
Qed.

Lemma recordAudio_success_from_host_witness :
  connectThrows (hostRecords 5200) = None
  /\ In (5200%Z, OnMessage recording) (events (hostRecords 5200))
  /\ (5200 <= timerFiresAt (effectiveTimeout 5000))%Z.
Proof.
  apply (recordAudio_success_from_host newRecorder 5000 false (hostRecords 5200) noCalls);
    reflexivity.
Defined.

(** While the port stays quiet until the race timer has fired, the record
    call answers with the timeout result, at the time of the timer. *)
Theorem recordAudio_quiet_port_times_out this durationMs encodeMp3 w pf :
  quietUntil (timerFiresAt (effectiveTimeout durationMs)) w ->
  (recordAudio this durationMs encodeMp3 w pf).1 =
  Fulfilled (timerFiresAt (effectiveTimeout durationMs)) timedOut.
Proof.
  intros Hq.
  pose proof (timerFiresAt_effectiveTimeout durationMs) as [_ HT].
  pose proof (sendMessage_quiet _ (Record_ durationMs encodeMp3) w pf HT Hq) as Hs.
  unfold recordAudio.
  destruct (sendMessage (Record_ durationMs encodeMp3) w pf) as [[|t v|t e] pf'];
    simpl in *; [done| |].
  all: by rewrite (proj2 (Z.leb_gt _ _) Hs).
Qed.

Lemma recordAudio_quiet_port_times_out_witness :
  (recordAudio newRecorder 2000 true (hostRecords 7001) noCalls).1 =
  Fulfilled 7000%Z timedOut.
Proof.
  apply (recordAudio_quiet_port_times_out newRecorder 2000 true (hostRecords 7001) noCalls).
  split; [reflexivity|]. split; [reflexivity|].
  repeat constructor.
Defined.

(** The race timer is the recording time plus five seconds up to 25
    seconds of recording, and 30 seconds from there on: a recording of
    more than 30 seconds cannot be obtained from a host from which nothing
    arrives before the recording time has passed. *)
Theorem recordAudio_long_recording_times_out this durationMs encodeMp3 w pf :
  ((durationMs <= 25000)%Z -> effectiveTimeout durationMs = (durationMs + 5000)%Z)
  /\ ((25000 <= durationMs)%Z -> effectiveTimeout durationMs = 30000%Z)
  /\ ((30000 < durationMs)%Z ->
      quietUntil (durationMs - 1) w ->
      (recordAudio this durationMs encodeMp3 w pf).1 = Fulfilled 30000%Z timedOut).
Proof.
  split; [unfold effectiveTimeout; lia|]. split; [unfold effectiveTimeout; lia|].
  intros Hd (Hc & Hp & Hall).
  assert (He : effectiveTimeout durationMs = 30000%Z) by (unfold effectiveTimeout; lia).
  assert (Hq : quietUntil (timerFiresAt (effectiveTimeout durationMs)) w).
  { split; [done|]. split; [done|]. rewrite He.
    eapply Forall_impl; [exact Hall|]. intros ev Hev. simpl in *.
    unfold timerFiresAt. lia. }
  pose proof (timerFiresAt_effectiveTimeout durationMs) as [_ HT].
  pose proof (sendMessage_quiet _ (Record_ durationMs encodeMp3) w pf HT Hq) as Hs.
  unfold recordAudio. rewrite He in *. change (timerFiresAt 30000) with 30000%Z in *.
  destruct (sendMessage (Record_ durationMs encodeMp3) w pf) as [[|t v|t e] pf'];
    simpl in *; [done| |].
  all: by rewrite (proj2 (Z.leb_gt _ _) Hs).
Qed.

Lemma recordAudio_long_recording_times_out_witness :
  (recordAudio newRecorder 45000 false (hostRecords 45100) noCalls).1 =
  Fulfilled 30000%Z timedOut.
Proof.
  apply (proj2 (proj2 (recordAudio_long_recording_times_out newRecorder 45000 false
                         (hostRecords 45100) noCalls))).
  - reflexivity.
  - split; [reflexivity|]. split; [reflexivity|]. repeat constructor.
Defined.

(** ** Further properties of checkAvailability and of the module *)

(** [checkAvailability()] never rejects: every failure of the connection
    becomes the answer false. It answers true only from the cache or from
    a host response with [success: true]; the answer it gives is the one
    it caches and the one [isAvailable] shows afterwards; and a call that
    never completes leaves the instance as it was. *)
Theorem checkAvailability_answers this w pf :
  isRejected (checkAvailability this w pf).1.1 = false
  /\ (forall t, (checkAvailability this w pf).1.1 = Fulfilled t true ->
        _isAvailable this = Some true
        \/ exists response,
             In (t, OnMessage response) (events w) /\ success response = true)
  /\ (forall t b, (checkAvailability this w pf).1.1 = Fulfilled t b ->
        _isAvailable (checkAvailability this w pf).1.2 = Some b
        /\ isAvailable (checkAvailability this w pf).1.2 = b)
  /\ ((checkAvailability this w pf).1.1 = Pending ->
        (checkAvailability this w pf).1.2 = this).
Proof.
  unfold checkAvailability, ping, sendMessage, isAvailable.
  destruct (_isAvailable this) as [b0|] eqn:Ea; simpl.
  - split; [done|]. split; [intros t [= _ ->]; by left|].
    split; [|done]. intros t b [= _ <-]. rewrite Ea. by destruct b0.
  - destruct (connectThrows w) as [err|]; simpl.
    + split; [done|]. split; [done|]. split; [|done].
      by intros t b [= _ <-].
    + pose proof (runPort_explained w) as Hex.
      destruct (promise (runPort (connected w) (events w))) as [|t0 v|t0 e]; simpl.
      * done.
      * split; [done|]. split.
        -- intros t [= <- Hs]. right. by exists v.
        -- split; [|done]. intros t b [= _ <-]. by destruct (success v).
      * split; [done|]. split; [done|]. split; [|done].
        by intros t b [= _ <-].
Qed.

Lemma step_connectCalls s op :
  exists calls,
    connectCalls (step s op).1.2 = connectCalls s.1.2 ++ calls
    /\ length calls <= (if connects op then 1 else 0).
Proof.
  destruct s as [[m pf] got].
  assert (Hnone : forall (m' : ModuleState) (got' : list nat) n,
            exists calls,
              connectCalls (m', pf, got').1.2 = connectCalls pf ++ calls
              /\ length calls <= n).
  { intros m' got' n. exists []. cbn. rewrite app_nil_r. split; [done|lia]. }
  destruct op as [| |r w|r d e w]; cbn [step connects fst snd].
  - destruct (getNativeAudioRecorder m). apply Hnone.
  - destruct (construct m). apply Hnone.
  - unfold checkAvailabilityAt. destruct (heap m !! r) as [this|]; [|apply Hnone].
    unfold checkAvailability, ping.
    destruct (_isAvailable this); [apply Hnone|].
    pose proof (sendMessage_connectCalls Ping w pf) as Hc.
    destruct (sendMessage Ping w pf) as [[|t v|t e] pf']; cbn in *;
      exists [Ping]; done.
  - destruct (heap m !! r) as [this|]; [|apply Hnone].
    unfold recordAudio.
    pose proof (sendMessage_connectCalls (Record_ d e) w pf) as Hc.
    destruct (sendMessage (Record_ d e) w pf) as [p pf']. cbn in *.
    exists [Record_ d e]. done.
Qed.

(** The module connects to the native host only when a method of an
    instance is called, and then at most once per call: in every run the
    earlier [connectNative] calls stay as they are and the new ones are no
    more than the [checkAvailability] and [recordAudio] calls of the run;
    getting the singleton or constructing an instance never connects. *)
Theorem run_connects_once_per_call ops s :
  exists calls,
    connectCalls (run ops s).1.2 = connectCalls s.1.2 ++ calls
    /\ length calls <= length (List.filter connects ops).
Proof.
  revert s. induction ops as [|op ops IH]; intros s.
  - exists []. simpl. by rewrite app_nil_r.
  - simpl. destruct (IH (step s op)) as (calls2 & H2 & L2).
    destruct (step_connectCalls s op) as (calls1 & H1 & L1).
    exists (calls1 ++ calls2). rewrite H2, H1, <- app_assoc. split; [done|].
    rewrite length_app. destruct (connects op); simpl in *; lia.
Qed.

Lemma sendMessage_first_event msg w pf t ev rest :
  connectThrows w = None ->
  postThrows w = None ->
  events w = (t, ev) :: rest ->
  (t < HARD_TIMEOUT)%Z ->
  (sendMessage msg w pf).1 =
  match ev with
  | OnMessage response => Fulfilled t response
  | OnDisconnect (Some m) => Rejected t (String.append "Native host error: " m)
  | OnDisconnect None => Pending
  end.
Proof.
  intros Hc Hp Hev Ht. unfold sendMessage. rewrite Hc, Hev. cbn [fst].
  rewrite (runPort_first (connected w) t ev rest) by done.
  unfold connected. rewrite Hp. by destruct ev as [response|[m|]].
Qed.

(** ** The race of recordAudio, in full *)

(** A promise that has settled keeps its outcome. *)
Lemma deliver_settled c ev :
  promise c <> Pending -> promise (deliver c ev) = promise c.
Proof.
  intros Hs. unfold deliver.
  destruct (timerArmed c && (HARD_TIMEOUT <=? ev.1)%Z); simpl.
  - by destruct (promise c).
  - destruct (portOpen c); [|done].
    destruct (snd ev) as [response|[m|]]; simpl; by destruct (promise c).
Qed.

Lemma runPort_settled c evs :
  promise c <> Pending -> promise (runPort c evs) = promise c.
Proof.
  intros Hs. unfold runPort.
  assert (H : promise (fold_left deliver evs c) = promise c).
  { revert c Hs. induction evs as [|ev evs IH]; intros c Hs; [done|].
    simpl. rewrite IH; [by apply deliver_settled|].
    by rewrite deliver_settled. }
  destruct (timerArmed _); [|done]. simpl. rewrite H. by destruct (promise c).
Qed.

Lemma race_early_fulfilled t v T :
  (t < T)%Z -> race (Fulfilled t v) T = Fulfilled t v.
Proof. intros H. simpl. by rewrite (proj2 (Z.leb_le t T)) by lia. Qed.

Lemma race_early_rejected t e T :
  (t < T)%Z -> race (Rejected t e) T = Rejected t e.
Proof. intros H. simpl. by rewrite (proj2 (Z.leb_le t T)) by lia. Qed.

Lemma race_late p T : settlesAfter T p -> race p T = Fulfilled T timedOut.
Proof.
  destruct p as [|t v|t e]; simpl; [done| |];
    intros H; by rewrite (proj2 (Z.leb_gt _ _) H).
Qed.

Lemma recordAudio_race this durationMs encodeMp3 w pf :
  (recordAudio this durationMs encodeMp3 w pf).1 =
    race (sendMessage (Record_ durationMs encodeMp3) w pf).1
         (timerFiresAt (effectiveTimeout durationMs))
  /\ connectCalls (recordAudio this durationMs encodeMp3 w pf).2 =
     connectCalls pf ++ [Record_ durationMs encodeMp3].
Proof.
  unfold recordAudio.
  pose proof (sendMessage_connectCalls (Record_ durationMs encodeMp3) w pf) as H.
  by destruct (sendMessage (Record_ durationMs encodeMp3) w pf).
Qed.

(** C1. Every record call makes the actual record call to the native host
    (one [connectNative], for a [record] message with this duration) and
    races it against a timer of [min(durationMs + 5000, 30000)]
    milliseconds. When the timer fires before the record call has settled,
    the caller receives exactly
    [{success: false, error: "Recording timed out"}], at the time of the
    timer; when the record call settles before the timer, the caller
    receives the outcome of the record call, at the time it settles. *)
Theorem recordAudio_timeout_race this durationMs encodeMp3 w pf :
  let T := timerFiresAt (Z.min (durationMs + 5000) 30000) in
  let call := (sendMessage (Record_ durationMs encodeMp3) w pf).1 in
  connectCalls (recordAudio this durationMs encodeMp3 w pf).2 =
    connectCalls pf ++ [Record_ durationMs encodeMp3]
  /\ (settlesAfter T call ->
      (recordAudio this durationMs encodeMp3 w pf).1 =
      Fulfilled T
        {| success := false; audioBase64 := None; format := None; message := None;
           audioSystem := None; error := Some "Recording timed out" |})
  /\ (forall t response,
        call = Fulfilled t response -> (t < T)%Z ->
        (recordAudio this durationMs encodeMp3 w pf).1 = Fulfilled t response)
  /\ (forall t e,
        call = Rejected t e -> (t < T)%Z ->
        (recordAudio this durationMs encodeMp3 w pf).1 = Rejected t e).
Proof.
  intros T call. subst T call.
  destruct (recordAudio_race this durationMs encodeMp3 w pf) as [Hr Hc].
  rewrite Hr. unfold effectiveTimeout.
  split; [done|]. split; [apply race_late|]. split.
  - intros t response -> Ht. by apply race_early_fulfilled.
  - intros t e -> Ht. by apply race_early_rejected.
Qed.

(** For 28000 ms the timer is set to 30000 ms: a host that answers after
    31000 ms comes too late, and a host that answers after 29000 ms is
    heard. *)
Lemma recordAudio_timeout_race_witness :
  (recordAudio newRecorder 28000 false (hostRecords 31000) noCalls).1 =
    Fulfilled 30000%Z timedOut
  /\ (recordAudio newRecorder 28000 false (hostRecords 29000) noCalls).1 =
    Fulfilled 29000%Z recording
  /\ connectCalls (recordAudio newRecorder 28000 false (hostRecords 29000) noCalls).2 =
    [Record_ 28000 false].
Proof.
  split; [|split].
  - apply (proj1 (proj2 (recordAudio_timeout_race newRecorder 28000 false
                           (hostRecords 31000) noCalls))).
    vm_compute. reflexivity.
  - apply (proj1 (proj2 (proj2 (recordAudio_timeout_race newRecorder 28000 false
                                  (hostRecords 29000) noCalls)))).
    + reflexivity.
    + reflexivity.
  - apply (proj1 (recordAudio_timeout_race newRecorder 28000 false
                    (hostRecords 29000) noCalls)).
Defined.

(** C6, as amended. A record call always settles. A failure that the host
    reports in a response, and the race timer, give a fulfilled promise:
    the promise carries the host's response, or the timeout result. A
    failure of [connectNative], an exception of [postMessage] and a
    disconnection with a platform error that comes before the race timer
    reject the promise with an [Error]; the promise is rejected in no
    other case, and the 60-second rejection never reaches the caller. *)
Theorem recordAudio_failure_channels this durationMs encodeMp3 w pf :
  let T := timerFiresAt (effectiveTimeout durationMs) in
  let r := (recordAudio this durationMs encodeMp3 w pf).1 in
  match r with
  | Pending => False
  | Fulfilled t response =>
      (t = T /\ response = timedOut) \/ In (t, OnMessage response) (events w)
  | Rejected t e =>
      (t <= T)%Z
      /\ ((exists err, connectThrows w = Some err
                       /\ e = String.append "Failed to connect to native host: " err)
          \/ (connectThrows w = None /\ postThrows w = Some e)
          \/ (exists m, In (t, OnDisconnect (Some m)) (events w)
                        /\ e = String.append "Native host error: " m))
  end
  /\ (forall err,
        connectThrows w = Some err ->
        r = Rejected 0 (String.append "Failed to connect to native host: " err))
  /\ (forall err,
        connectThrows w = None -> postThrows w = Some err ->
        r = Rejected 0 err)
  /\ (forall t m rest,
        connectThrows w = None -> postThrows w = None ->
        events w = (t, OnDisconnect (Some m)) :: rest -> (t < T)%Z ->
        r = Rejected t (String.append "Native host error: " m))
  /\ (forall t response rest,
        connectThrows w = None -> postThrows w = None ->
        events w = (t, OnMessage response) :: rest -> (t < T)%Z ->
        r = Fulfilled t response)
  /\ (quietUntil T w -> r = Fulfilled T timedOut).
Proof.
  intros T r. subst T r.
  pose proof (timerFiresAt_effectiveTimeout durationMs) as [HT0 HT].
  destruct (recordAudio_race this durationMs encodeMp3 w pf) as [Hr _].
  rewrite Hr. clear Hr.
  split; [|split; [|split; [|split; [|split]]]].
  - unfold sendMessage.
    destruct (connectThrows w) as [err|] eqn:Ec; cbn [fst race].
    + rewrite (proj2 (Z.leb_le 0 _)) by lia. split; [lia|]. left. by exists err.
    + pose proof (runPort_explained w) as Hex.
      destruct (promise (runPort (connected w) (events w))) as [|t v|t e]; simpl.
      * by left.
      * destruct (t <=? _)%Z; [by right | by left].
      * destruct (t <=? _)%Z eqn:E; [|by left].
        apply Z.leb_le in E. split; [done|].
        simpl in Hex. destruct Hex as [Hp|[Hd|[-> _]]].
        -- right. by left.
        -- right. by right.
        -- unfold HARD_TIMEOUT in *. lia.
  - intros err Hc. unfold sendMessage. rewrite Hc. cbn [fst race].
    by rewrite (proj2 (Z.leb_le 0 _)) by lia.
  - intros err Hc Hp. unfold sendMessage. rewrite Hc. cbn [fst].
    rewrite runPort_settled; unfold connected; rewrite Hp; [|done].
    cbn [promise race]. by rewrite (proj2 (Z.leb_le 0 _)) by lia.
  - intros t m rest Hc Hp Hev Ht.
    rewrite (sendMessage_first_event (Record_ durationMs encodeMp3) w pf t
               (OnDisconnect (Some m)) rest) by (done || lia).
    by apply race_early_rejected.
  - intros t response rest Hc Hp Hev Ht.
    rewrite (sendMessage_first_event (Record_ durationMs encodeMp3) w pf t
               (OnMessage response) rest) by (done || lia).
    by apply race_early_fulfilled.
  - intros Hq. apply race_late. by apply sendMessage_quiet.
Qed.

(** One script for each channel. *)
Lemma recordAudio_failure_channels_witness :
  (recordAudio newRecorder 5000 false connectFails noCalls).1 =
    Rejected 0%Z
      "Failed to connect to native host: Error: Access to native messaging host is forbidden"
  /\ (recordAudio newRecorder 5000 false postFails noCalls).1 =
    Rejected 0%Z "Error: Attempt to postMessage on disconnected port"
  /\ (recordAudio newRecorder 5000 false hostMissing noCalls).1 =
    Rejected 20%Z "Native host error: No such native application dev.asbplayer.audio"
  /\ (recordAudio newRecorder 5000 false hostWithoutAudio noCalls).1 =
    Fulfilled 40%Z noAudioSystem
  /\ (recordAudio newRecorder 5000 false (hostRecords 10001) noCalls).1 =
    Fulfilled 10000%Z timedOut.
Proof.
  split; [|split; [|split; [|split]]].
  - apply (proj1 (proj2 (recordAudio_failure_channels newRecorder 5000 false
                           connectFails noCalls))).
    reflexivity.
  - apply (proj1 (proj2 (proj2 (recordAudio_failure_channels newRecorder 5000 false
                                  postFails noCalls)))); reflexivity.
  - apply (proj1 (proj2 (proj2 (proj2 (recordAudio_failure_channels newRecorder
                                         5000 false hostMissing noCalls))))
             20%Z "No such native application dev.asbplayer.audio" []);
      reflexivity.
  - apply (proj1 (proj2 (proj2 (proj2 (proj2 (recordAudio_failure_channels
                                                newRecorder 5000 false
                                                hostWithoutAudio noCalls)))))
             40%Z noAudioSystem []); reflexivity.
  - apply (proj2 (proj2 (proj2 (proj2 (proj2 (recordAudio_failure_channels
                                                newRecorder 5000 false
                                                (hostRecords 10001) noCalls)))))).
    split; [reflexivity|]. split; [reflexivity|]. repeat constructor.
Defined.

End NativeAudioRecorderProofs.

(** * Properties of the sidebar service *)

Module SidebarServiceProofs.
Import SidebarService.

(** C10. On the Chrome build [isOpen()] answers false whatever the state of
    the browser, and [toggle()] fails with an [Error], neither of them
    calling the platform; on the Firefox build both are the platform's
    [sidebarAction] calls. *)
Theorem chrome_sidebar_not_native {Browser : Type} (api : Api Browser) (b : Browser) :
  (isOpen false api b = (Resolves false, b)
   /\ toggle false api b =
      (Rejects "Chrome toggle should be handled by toggle-side-panel-handler", b))
  /\ (isOpen true api b = sidebarAction_isOpen api b
      /\ toggle true api b = sidebarAction_toggle api b).
Proof. repeat split. Qed.

(** With the side panel open, the Chrome build still answers false. *)
Example chrome_isOpen_with_open_panel :
  isOpen false panelApi {| panelOpen := true; warnings := [] |} =
    (Resolves false, {| panelOpen := true; warnings := [] |})
  /\ isOpen true panelApi {| panelOpen := true; warnings := [] |} =
    (Resolves true, {| panelOpen := true; warnings := [] |}).
Proof. split; reflexivity. Qed.


(** On the Firefox build every method makes exactly one platform call, a
    [sidebarAction] one. On the Chrome build no method ever calls
    [sidebarAction]; [toggle()] and [isOpen()] make no platform call at
    all, [close()] and [setTitle()] only write a warning and are always
    fulfilled, and [open()] asks for the focused window first and calls
    [sidePanel.open] only when that has succeeded. The log changes nothing
    in what the methods do. *)
Theorem sidebar_platform_calls {B : Type} isFirefoxBuild (api : Api B) m b :
  (invoke isFirefoxBuild (traced api) m (b, [])).1 = (invoke isFirefoxBuild api m b).1
  /\ (invoke isFirefoxBuild (traced api) m (b, [])).2.1 = (invoke isFirefoxBuild api m b).2
  /\ if isFirefoxBuild then
       exists c, (invoke true (traced api) m (b, [])).2.2 = [c]
                 /\ isSidebarAction c = true
     else
       Forall (fun c => isSidebarAction c = false)
         (invoke false (traced api) m (b, [])).2.2
       /\ match m with
          | m_toggle | m_isOpen => (invoke false (traced api) m (b, [])).2.2 = []
          | m_close | m_setTitle _ =>
              (invoke false api m b).1 = None
              /\ exists msg, (invoke false (traced api) m (b, [])).2.2 = [call_console_warn msg]
          | m_setPanel p =>
              (invoke false (traced api) m (b, [])).2.2 = [call_sidePanel_setOptions p]
          | m_open =>
              match windows_getLastFocused B api b with
              | (Resolves windowId, _) =>
                  (invoke false (traced api) m (b, [])).2.2 =
                  [call_windows_getLastFocused; call_sidePanel_open windowId]
              | (Rejects e, _) =>
                  (invoke false (traced api) m (b, [])).2.2 = [call_windows_getLastFocused]
                  /\ (invoke false api m b).1 = Some e
              end
          end.
Proof.
  destruct isFirefoxBuild.
  - destruct m; cbn; (split; [done|]); (split; [done|]); eexists; done.
  - destruct m; cbn.
    + destruct (windows_getLastFocused B api b) as [[windowId|e] b'] eqn:E; cbn.
      * split; [done|]. split; [done|]. split; [|done]. repeat constructor.
      * split; [done|]. split; [done|]. split; [|done]. repeat constructor.
    + split; [done|]. split; [done|]. split; [repeat constructor|].
      split; [done|]. eexists; done.
    + split; [done|]. split; [done|]. split; [constructor|done].
    + split; [done|]. split; [done|]. split; [constructor|done].
    + split; [done|]. split; [done|]. split; [repeat constructor|done].
    + split; [done|]. split; [done|]. split; [repeat constructor|].
      split; [done|]. eexists; done.
Qed.

End SidebarServiceProofs.
